(** * The Solow model with human capital: transition maps and convergence loops

    A shallow embedding of the model-project notebook: the closed-form steady
    state it prints, the Cobb-Douglas transition functions [kt_plus1_func] /
    [ht_plus1_func], the CES transition functions [kt1] / [ht1], and the two
    interactive drivers [interact_CD] / [interact_CES] with their parameter
    guards and their [while] loop.

    Numbers.  The notebook computes with Python floats.  The arithmetic the
    code uses is collected in the class [PyNum], and the code is translated
    once, over any instance.  Two instances are used:
    - the real numbers, in which the model equations are stated: no rounding,
      no overflow, [/] total, and [**] on a positive base is [Rpower];
    - IEEE binary64 ([PrimFloat]), which has NaN and the infinities; the float
      power is not part of that library and is an argument of the instance.

    Part I holds the definitions, Part II the lemmas and theorems. *)

From Stdlib Require Import Reals Lra Lia List Bool Arith Floats.
Import ListNotations.

Set Implicit Arguments.

(** * Part I.  Definitions *)

(** ** The arithmetic used by the notebook *)

Class PyNum (F : Type) : Type := {
  nadd : F -> F -> F;          (* x + y  *)
  nsub : F -> F -> F;          (* x - y  *)
  nmul : F -> F -> F;          (* x * y  *)
  ndiv : F -> F -> F;          (* x / y  *)
  npow : F -> F -> F;          (* x ** y *)
  nopp : F -> F;               (* - x    *)
  nabs : F -> F;               (* np.abs(x) *)
  nltb : F -> F -> bool;       (* x < y  *)
  nleb : F -> F -> bool;       (* x <= y *)
  neqb : F -> F -> bool;       (* x == y *)
  zero : F;                    (* the literal 0 *)
  one : F;                     (* the literal 1 *)
  lit_tol : F                  (* the literal 0.00001 *)
}.

Declare Scope num_scope.
Delimit Scope num_scope with num.
Infix "+" := nadd : num_scope.
Infix "-" := nsub : num_scope.
Infix "*" := nmul : num_scope.
Infix "/" := ndiv : num_scope.
Infix "**" := npow (at level 30, right associativity) : num_scope.
Notation "- x" := (nopp x) : num_scope.
Infix "<?" := nltb : num_scope.
Infix "<=?" := nleb : num_scope.
Infix "=?" := neqb : num_scope.
Notation "x >=? y" := (nleb y x) (at level 70) : num_scope.

(** ** What a driver ends with

    Each driver either shows one of four warnings, or leaves the loop through
    one of its two [break]s.  [Converged ks hs] is the branch that shows
    'Convergence archieved!' and plots the two lists; [NotConverged ks hs] is
    the branch that shows 'No convergence archieved', recorded with the lists
    as they are at the [break].  [Unbound] stands for leaving the [while] by
    its condition, where [result] was never assigned.  An outcome records the
    branch the driver reaches and the lists it has built there; what the
    plot functions then do with the lists, and an exception raised by
    Python's arithmetic inside a transition function, are not part of it
    (for the latter see [call_result]). *)

Inductive warning : Type :=
| W_shares_and_savings   (* alpha + phi and s_H + s_K have to be less than 1 *)
| W_shares               (* alpha + phi has to be less than 1 *)
| W_savings              (* s_H + s_K has to be less than 1 *)
| W_stability.           (* n + g + delta has to be greater than 0 *)

Inductive outcome (F : Type) : Type :=
| Warning (w : warning)
| Converged (ks hs : list F)
| NotConverged (ks hs : list F)
| Unbound.

Arguments Warning {F} w.
Arguments Converged {F} ks hs.
Arguments NotConverged {F} ks hs.
Arguments Unbound {F}.

(** Number of states in the lists a driver ends with. *)
Definition trajectory_length (F : Type) (o : outcome F) : nat :=
  match o with
  | Converged ks _ | NotConverged ks _ => length ks
  | Warning _ | Unbound => 0
  end.

(** ** The notebook's functions *)

Section Model.
Context {F : Type} {num : PyNum F}.
Local Open Scope num_scope.

(** *** Steady state (cells 2 and 3)

    [ss_sol] is what the symbolic solver returns for the two steady-state
    equations; the notebook prints its first solution, [ktilstar] and
    [htilstar], and [lambdify] turns the two expressions into the functions
    below.  They are copied from that printed output. *)

Definition _ktilstar_sol (sh phi alpha sk delta g n : F) : F :=
  sh ** (- (phi / (phi + alpha - one)))
  * (sk ** (phi - one) * (delta + g * n + g + n)) ** (one / (phi + alpha - one)).

Definition _htilstar_sol (sh phi alpha sk delta g n : F) : F :=
  (_ktilstar_sol sh phi alpha sk delta g n ** (- alpha)
   * (delta + g * n + g + n) / sh) ** (one / (phi - one)).

(** *** Cobb-Douglas transition equations (cell 4)

    [ktplus1] and [htplus1] are symbolic expressions turned into functions by
    [lambdify]; the functions below are those expressions, in the order in
    which the cell writes them.  The symbolic library may reorder the terms
    before it generates the function: over the real numbers that changes
    nothing, over binary64 it can change the last place of a result. *)

Definition kt_plus1_func (tilkt tilht alpha n g sh sk delta phi : F) : F :=
  one / ((one + n) * (one + g))
    * (sk * tilkt ** alpha * tilht ** phi - (n + g + delta + n * g) * tilkt)
  + tilkt.

Definition ht_plus1_func (tilkt tilht alpha n g sh sk delta phi : F) : F :=
  one / ((one + n) * (one + g))
    * (sh * tilkt ** alpha * tilht ** phi - (n + g + delta + n * g) * tilht)
  + tilht.

(** *** CES transition equations (cell 8) *)

Definition kt1 (tilkt tilht sk alpha phi sigma n g delta : F) : F :=
  (one / ((one + n) * (one + g)))
    * (sk * (alpha * tilkt ** ((sigma - one) / sigma)
             + phi * tilht ** ((sigma - one) / sigma)
             + (one - alpha - phi)) ** (sigma / (sigma - one))
       - (n + g + delta + n * g) * tilkt + tilkt).

Definition ht1 (tilkt tilht sh alpha phi sigma n g delta : F) : F :=
  (one / ((one + n) * (one + g)))
    * (sh * (alpha * tilkt ** ((sigma - one) / sigma)
             + phi * tilht ** ((sigma - one) / sigma)
             + (one - alpha - phi)) ** (sigma / (sigma - one))
       - (n + g + delta + n * g) * tilht)
  + tilht.

(** *** The loop shared by [interact_CD] and [interact_CES]

    [kmap] and [hmap] are the two transition functions with the model
    parameters already supplied; [tol] is the error margin (0.00001 in both
    drivers) and [maxit] the bound of the [while] (10000 in both drivers,
    with the second [break] at [maxit - 1] = 9999). *)

Section Loop.
Variables kmap hmap : F -> F -> F.
Variable tol : F.
Variable maxit : nat.

(** [l[-1]], [l[-2]] and [l[i]].  In the loop both lists have [i + 1]
    entries and [i >= 1], so every use is in range. *)
Definition idx_last (l : list F) : F := last l zero.
Definition idx_last2 (l : list F) : F := nth (length l - 2) l zero.
Definition idx (l : list F) (i : nat) : F := nth i l zero.

(** The test of the first [if]: numpy's [&] of the two comparisons. *)
Definition margin_reached (ks hs : list F) : bool :=
  (nabs (idx_last hs - idx_last2 hs) <? tol)
  && (nabs (idx_last ks - idx_last2 ks) <? tol).

(** The two [append]s, in order; the second one reads [ks[i]] from the
    list that has already grown. *)
Definition append_next (i : nat) (ks hs : list F) : list F * list F :=
  let ks' := ks ++ [kmap (idx ks i) (idx hs i)] in
  let hs' := hs ++ [hmap (idx ks' i) (idx hs i)] in
  (ks', hs').

(** [while i < maxit]: [fuel] counts the passes left, [fuel = maxit - i]
    (the loop variable grows by one per pass). *)
Fixpoint while_loop (fuel i : nat) (ks hs : list F) : outcome F :=
  match fuel with
  | O => Unbound
  | S fuel' =>
      if margin_reached ks hs then Converged ks hs
      else if Nat.eqb i (maxit - 1) then NotConverged ks hs
      else let '(ks', hs') := append_next i ks hs in
           while_loop fuel' (S i) ks' hs'
  end.

(** The [else] branch of a driver: the two lists, the first step, the loop. *)
Definition simulate (k0 h0 : F) : outcome F :=
  let '(ks, hs) := append_next 0 [k0] [h0] in
  while_loop (maxit - 1) 1 ks hs.
End Loop.

(** *** The drivers, with the error margin and the bound as arguments *)

Definition run_CD (tol : F) (maxit : nat)
    (k0 h0 sk sh alpha phi n g delta : F) : outcome F :=
  if (sk + sh >=? one) && (alpha + phi >=? one) then Warning W_shares_and_savings
  else if alpha + phi >=? one then Warning W_shares
  else if sk + sh >=? one then Warning W_savings
  else if n + g + delta + n * g <=? zero then Warning W_stability
  else simulate
         (fun k h => kt_plus1_func k h alpha n g sh sk delta phi)
         (fun k h => ht_plus1_func k h alpha n g sh sk delta phi)
         tol maxit k0 h0.

Definition run_CES (tol : F) (maxit : nat)
    (k0 h0 sk sh alpha phi sigma n g delta : F) : outcome F :=
  if (sk + sh >=? one) && (alpha + phi >=? one) then Warning W_shares_and_savings
  else if alpha + phi >=? one then Warning W_shares
  else if sk + sh >=? one then Warning W_savings
  else if n + g + delta =? zero then Warning W_stability
  else simulate
         (fun k h => kt1 k h sk alpha phi sigma n g delta)
         (fun k h => ht1 k h sh alpha phi sigma n g delta)
         tol maxit k0 h0.

(** The bound written in both drivers, 10000. *)
Definition max_iter : nat := 100 * 100.

(** *** The drivers as written (cells 7 and 9) *)

Definition interact_CD : F -> F -> F -> F -> F -> F -> F -> F -> F -> outcome F :=
  run_CD lit_tol max_iter.

Definition interact_CES : F -> F -> F -> F -> F -> F -> F -> F -> F -> F -> outcome F :=
  run_CES lit_tol max_iter.

End Model.

(** ** The two instances *)

(** *** Real numbers

    [x ** y] is [Rpower x y] = exp (y * ln x), the power of the code for a
    positive base [x]; on a zero or negative base Python returns 0.0 or a
    complex number or raises, and [Rpower] is not the code there.  [x / y]
    is the library's total division; Python raises ZeroDivisionError on a
    zero divisor, which in these functions means (1+n)(1+g) = 0, sigma = 0
    or sigma = 1.  A theorem that says what a call returns therefore carries
    the hypotheses that keep the call inside this domain (a nonzero divisor,
    positive states, see [guards_keep_divisor_positive] and
    [cd_state_positive]), or is about the guards and the loop only, whatever
    the transition functions return.  [run_CD_checked] adds the
    ZeroDivisionError of the Cobb-Douglas driver. *)

Definition Rltb (x y : R) : bool := if Rlt_dec x y then true else false.
Definition Rleb (x y : R) : bool := if Rle_dec x y then true else false.
Definition Reqb (x y : R) : bool := if Req_dec_T x y then true else false.

#[export] Instance real_num : PyNum R := {|
  nadd := Rplus; nsub := Rminus; nmul := Rmult; ndiv := Rdiv;
  npow := Rpower; nopp := Ropp; nabs := Rabs;
  nltb := Rltb; nleb := Rleb; neqb := Reqb;
  zero := 0%R; one := 1%R; lit_tol := (1 / 100000)%R
|}.

(** *** IEEE binary64

    [+], [-], [*], [/], [abs] and the comparisons of a Python float are the
    binary64 operations ([/] away from a zero divisor, where Python raises
    instead).  [fpow] stands for the float power where it returns a float
    (Python's [**] can also raise or return a complex number); the library
    does not provide it.  The theorems over this instance are about the
    guards and the loop, which use [+], [-], [*], [abs] and comparisons
    only, and about runs whose divisor is not zero.  [1 / 100000] is the
    binary64 number nearest to 0.00001, as the literal is. *)

Definition float_num (fpow : float -> float -> float) : PyNum float := {|
  nadd := PrimFloat.add; nsub := PrimFloat.sub; nmul := PrimFloat.mul;
  ndiv := PrimFloat.div; npow := fpow; nopp := PrimFloat.opp; nabs := PrimFloat.abs;
  nltb := PrimFloat.ltb; nleb := PrimFloat.leb; neqb := PrimFloat.eqb;
  zero := 0%float; one := 1%float; lit_tol := (1 / 100000)%float
|}.

(** The operations of the two instances, unfolded. *)
Ltac real_ops :=
  cbn [nadd nsub nmul ndiv npow nopp nabs nltb nleb neqb zero one lit_tol real_num].
Ltac float_ops :=
  cbn [nadd nsub nmul ndiv npow nopp nabs nltb nleb neqb zero one lit_tol float_num].

(** ** The trajectory as a sequence of states

    The loop keeps two lists; position [j] of the lists is the state after [j]
    applications of the transition functions.  [state_at], [ks_upto] and
    [hs_upto] describe those lists from the outside, so that the loop can be
    compared with them. *)

Section TrajectoryDefs.
Context {F : Type} {num : PyNum F}.
Variables kmap hmap : F -> F -> F.
Variable tol : F.
Variables k0 h0 : F.

Definition next_state (s : F * F) : F * F :=
  (kmap (fst s) (snd s), hmap (fst s) (snd s)).

Fixpoint state_at (j : nat) : F * F :=
  match j with
  | O => (k0, h0)
  | S j' => next_state (state_at j')
  end.

(** The lists of the states 0..m. *)
Definition ks_upto (m : nat) : list F := map (fun j => fst (state_at j)) (seq 0 (S m)).
Definition hs_upto (m : nat) : list F := map (fun j => snd (state_at j)) (seq 0 (S m)).

(** The error-margin test on the states [j - 1] and [j]. *)
Definition moved_less (j : nat) : bool :=
  ((nabs (snd (state_at j) - snd (state_at (j - 1))) <? tol)
   && (nabs (fst (state_at j) - fst (state_at (j - 1))) <? tol))%num.

End TrajectoryDefs.

(** ** Propositions about calls over the real numbers *)

Section RealDefs.
Local Open Scope R_scope.

(** The restrictions on the parameters stated with the model equations. *)
Definition valid_parameters (sk sh alpha phi n g delta : R) : Prop :=
  0 < sk /\ 0 < sh /\ sk + sh < 1
  /\ 0 < alpha /\ 0 < phi /\ alpha + phi < 1
  /\ 0 < n + g + delta + n * g.

(** The guards of the two drivers, as propositions: what lets a call
    through to the loop. *)
Definition passes_CD (sk sh alpha phi n g delta : R) : Prop :=
  sk + sh < 1 /\ alpha + phi < 1 /\ 0 < n + g + delta + n * g.

Definition passes_CES (sk sh alpha phi n g delta : R) : Prop :=
  sk + sh < 1 /\ alpha + phi < 1 /\ n + g + delta <> 0.

(** The CES equations as the specification words them: the aggregate
    [Z_t], and the next value of a coordinate [x] with savings rate [s]. *)
Definition ces_Z (k h alpha phi sigma : R) : R :=
  alpha * Rpower k ((sigma - 1) / sigma)
  + phi * Rpower h ((sigma - 1) / sigma)
  + (1 - alpha - phi).

Definition ces_next (s x k h alpha phi sigma n g delta : R) : R :=
  x + (s * Rpower (ces_Z k h alpha phi sigma) (sigma / (sigma - 1))
       - (n + g + delta + n * g) * x) / ((1 + n) * (1 + g)).

(** Both coordinates of state [j] are within [tol] of state [j - 1]. *)
Definition within_margin (kmap hmap : R -> R -> R) (tol k0 h0 : R) (j : nat) : Prop :=
  Rabs (fst (state_at kmap hmap k0 h0 j) - fst (state_at kmap hmap k0 h0 (j - 1))) < tol
  /\ Rabs (snd (state_at kmap hmap k0 h0 j) - snd (state_at kmap hmap k0 h0 (j - 1))) < tol.

(** [ks], [hs] are the lists of the states 0..m, where [m] is the first
    position (from 1 on, below the bound) at which both coordinates moved
    by less than [tol]. *)
Definition first_within_margin (kmap hmap : R -> R -> R) (tol : R) (maxit : nat)
    (k0 h0 : R) (ks hs : list R) : Prop :=
  exists m, (1 <= m <= maxit - 1)%nat
    /\ ks = ks_upto kmap hmap k0 h0 m
    /\ hs = hs_upto kmap hmap k0 h0 m
    /\ within_margin kmap hmap tol k0 h0 m
    /\ (forall j, (1 <= j < m)%nat -> ~ within_margin kmap hmap tol k0 h0 j).

End RealDefs.

(** ** Propositions about calls over binary64 *)

(** A driver's result [r], for transition functions [kmap], [hmap]: a
    warning, or one of the two [break]s on the lists of the states 0..m;
    Converged only with a finite last state, NotConverged only at the bound. *)
Definition ends_in_a_break (kmap hmap : float -> float -> float) (k0 h0 : float)
    (r : outcome float) : Prop :=
  (exists w, r = Warning w)
  \/ exists m, 1 <= m <= max_iter - 1
       /\ ((r = Converged (ks_upto kmap hmap k0 h0 m) (hs_upto kmap hmap k0 h0 m)
            /\ is_finite (fst (state_at kmap hmap k0 h0 m)) = true
            /\ is_finite (snd (state_at kmap hmap k0 h0 m)) = true)
           \/ (m = max_iter - 1
               /\ r = NotConverged (ks_upto kmap hmap k0 h0 m)
                                   (hs_upto kmap hmap k0 h0 m))).

(** ** The steady-state widget (cell 3)

    [ss_sol_int] tests the parameters with the same four conditions as
    [interact_CD] (the two sums in the other order) and otherwise displays
    the two steady-state values. *)

Inductive ss_outcome (F : Type) : Type :=
| SS_warning (w : warning)
| SS_shown (ktilstar htilstar : F).

Arguments SS_warning {F} w.
Arguments SS_shown {F} ktilstar htilstar.

Section Widget.
Context {F : Type} {num : PyNum F}.
Local Open Scope num_scope.

Definition ss_sol_int (sh phi alpha sk delta g n : F) : ss_outcome F :=
  if (alpha + phi >=? one) && (sh + sk >=? one) then SS_warning W_shares_and_savings
  else if sh + sk >=? one then SS_warning W_savings
  else if alpha + phi >=? one then SS_warning W_shares
  else if n + g + delta + n * g <=? zero then SS_warning W_stability
  else SS_shown (_ktilstar_sol sh phi alpha sk delta g n)
                (_htilstar_sol sh phi alpha sk delta g n).

(** A property of the two lists a driver ends with (nothing to say when it
    ends otherwise). *)
Definition on_trajectory (P : list F -> list F -> Prop) (r : outcome F) : Prop :=
  match r with
  | Converged ks hs | NotConverged ks hs => P ks hs
  | Warning _ | Unbound => True
  end.

(** The lists start at the initial state and every further entry is the
    image of the one before under the two transition functions. *)
Definition is_orbit (kmap hmap : F -> F -> F) (k0 h0 : F) (ks hs : list F) : Prop :=
  length hs = length ks
  /\ idx ks 0 = k0 /\ idx hs 0 = h0
  /\ forall j, S j < length ks ->
       idx ks (S j) = kmap (idx ks j) (idx hs j)
       /\ idx hs (S j) = hmap (idx ks j) (idx hs j).

End Widget.

(** ** The axes of the two plots (cells 6 and 10)

    [create_cd_plot] and [create_ces_plot] set both axes to
    [0, max(k[-1]*1.1, h[-1]*1.1, k[0]*1.1, h[0]*1.1)]. *)

Definition plot_limit (ks hs : list R) : R :=
  Rmax (Rmax (Rmax (idx_last ks * (11 / 10)) (idx_last hs * (11 / 10)))
             (idx ks 0 * (11 / 10)))
       (idx hs 0 * (11 / 10)).

(** The four points the limit is computed from lie strictly inside the axes. *)
Definition ends_inside_axes (ks hs : list R) : Prop :=
  (0 < idx ks 0 < plot_limit ks hs)%R /\ (0 < idx hs 0 < plot_limit ks hs)%R
  /\ (0 < idx_last ks < plot_limit ks hs)%R /\ (0 < idx_last hs < plot_limit ks hs)%R.


(** ** The calculations of the data notebook (cell 16)

    For each of its nine frames the data notebook adds six columns computed
    from the column 'Absolute level'.  [xs] below is that column in row
    order (after [reset_index] the labels are the positions 0, 1, ...), read
    as real numbers with no missing value.  A derived column has one entry
    per row; an entry that is not a finite number in pandas (NaN, or the
    infinity or NaN of a division by a zero level) is [None].  The column
    'Simple index' is filled by chained assignment and is not modelled. *)

Definition column : Type := list (option R).

(** Row [j] of a column, missing when there is no such row. *)
Definition row (c : column) (j : nat) : option R := nth j c None.

(** [Series.diff()] and [Series.pct_change()] on a column without missing
    values: row 0 is missing, every other row is computed from the row
    before it and the row itself. *)
Fixpoint from_previous (f : R -> R -> option R) (prev : R) (xs : list R) : column :=
  match xs with
  | [] => []
  | x :: rest => f prev x :: from_previous f x rest
  end.

Definition diff (xs : list R) : column :=
  match xs with
  | [] => []
  | x :: rest => None :: from_previous (fun prev cur => Some (cur - prev)%R) x rest
  end.

Definition pct_change (xs : list R) : column :=
  match xs with
  | [] => []
  | x :: rest =>
      None :: from_previous
                (fun prev cur => if Reqb prev 0 then None else Some (cur / prev - 1)%R)
                x rest
  end.

(** [Series.diff()] on a column that has such entries: a difference with an
    operand that is not a finite number is not a finite number. *)
Definition sub_missing (cur prev : option R) : option R :=
  match cur, prev with
  | Some c, Some p => Some (c - p)%R
  | _, _ => None
  end.

Fixpoint from_previous_missing (prev : option R) (c : column) : column :=
  match c with
  | [] => []
  | x :: rest => sub_missing x prev :: from_previous_missing x rest
  end.

Definition diff_missing (c : column) : column :=
  match c with
  | [] => []
  | x :: rest => None :: from_previous_missing x rest
  end.

(** [Series.mean()] on a column without missing values. *)
Definition mean (xs : list R) : R := (fold_right Rplus 0 xs / INR (length xs))%R.

(** The columns, named as in the frame. *)
Definition absolute_change (xs : list R) : column := diff xs.

Definition average_absolute_change (xs : list R) : R := mean xs.

Definition percentage_change (xs : list R) : column :=
  map (option_map (fun v => v * 100)%R) (pct_change xs).

Definition average_percentage_change (xs : list R) : R :=
  ((Rpower (last xs 0 / nth 0 xs 0) (1 / INR (length xs)) - 1) * 100)%R.

Definition change_in_percentage_points (xs : list R) : column :=
  diff_missing (percentage_change xs).

(** A number assigned to a column is repeated on every row; [view2] prints
    row 3 of the two columns of averages, which is a KeyError ([None]) when
    the frame has no such row. *)
Definition broadcast (v : R) (xs : list R) : list R := repeat v (length xs).

Definition view2_average (col : list R) : option R := nth_error col 3.

(** Series that grow by a constant amount, and by a constant factor. *)
Definition arithmetic_series (x0 c : R) (n : nat) : list R :=
  map (fun j => x0 + c * INR j)%R (seq 0 n).

Definition geometric_series (x0 q : R) (n : nat) : list R :=
  map (fun j => x0 * q ^ j)%R (seq 0 n).

(** ** Division by zero in the Cobb-Douglas driver

    Python's [/] raises ZeroDivisionError on a zero divisor, where the
    division of the real numbers returns a number.  [kt_plus1_func] and
    [ht_plus1_func] divide once, by (1+n)(1+g), which does not change during
    a call.  A call of [interact_CD] that passes the guards therefore raises
    at its first application of [kt_plus1_func] (the first [append], before
    the loop) when (1+n)(1+g) = 0, and never divides by zero otherwise.  On
    a warning nothing is divided. *)

Inductive call_result : Type :=
| Returned (r : outcome R)
| ZeroDivisionError.

Definition run_CD_checked (tol : R) (maxit : nat)
    (k0 h0 sk sh alpha phi n g delta : R) : call_result :=
  match run_CD tol maxit k0 h0 sk sh alpha phi n g delta with
  | Warning w => Returned (Warning w)
  | r => if Reqb ((1 + n) * (1 + g)) 0 then ZeroDivisionError else Returned r
  end.

(** * Part II.  Lemmas and theorems *)

(** ** The loop and the sequence of states *)

Section TrajectoryFacts.
Context {F : Type} {num : PyNum F}.
Variables kmap hmap : F -> F -> F.
Variable tol : F.
Variable maxit : nat.
Variables k0 h0 : F.

Local Abbreviation state := (state_at kmap hmap k0 h0).
Local Abbreviation ks_to := (ks_upto kmap hmap k0 h0).
Local Abbreviation hs_to := (hs_upto kmap hmap k0 h0).
Local Abbreviation moved := (moved_less kmap hmap tol k0 h0).
Local Abbreviation loop := (while_loop kmap hmap tol maxit).

Lemma length_ks_upto m : length (ks_to m) = S m.
Proof. unfold ks_upto. now rewrite length_map, length_seq. Qed.

Lemma length_hs_upto m : length (hs_to m) = S m.
Proof. unfold hs_upto. now rewrite length_map, length_seq. Qed.

Lemma ks_upto_S m : ks_to (S m) = ks_to m ++ [fst (state (S m))].
Proof. unfold ks_upto. rewrite (seq_S (S m) 0), map_app. reflexivity. Qed.

Lemma hs_upto_S m : hs_to (S m) = hs_to m ++ [snd (state (S m))].
Proof. unfold hs_upto. rewrite (seq_S (S m) 0), map_app. reflexivity. Qed.

Lemma nth_map_seq (f : nat -> F) (n j : nat) :
  j < n -> nth j (map f (seq 0 n)) zero = f j.
Proof.
  intros Hj. rewrite (nth_indep _ zero (f 0)) by now rewrite length_map, length_seq.
  rewrite (map_nth f (seq 0 n) 0 j), seq_nth by assumption. reflexivity.
Qed.

Lemma idx_ks_upto m j : j <= m -> idx (ks_to m) j = fst (state j).
Proof. intros Hj. unfold idx, ks_upto. apply nth_map_seq. lia. Qed.

Lemma idx_hs_upto m j : j <= m -> idx (hs_to m) j = snd (state j).
Proof. intros Hj. unfold idx, hs_upto. apply nth_map_seq. lia. Qed.

Lemma idx_last_ks_upto m : idx_last (ks_to m) = fst (state m).
Proof.
  unfold idx_last. destruct m as [|m]; [reflexivity|].
  rewrite ks_upto_S. apply last_last.
Qed.

Lemma idx_last_hs_upto m : idx_last (hs_to m) = snd (state m).
Proof.
  unfold idx_last. destruct m as [|m]; [reflexivity|].
  rewrite hs_upto_S. apply last_last.
Qed.

Lemma idx_last2_ks_upto m : 1 <= m -> idx_last2 (ks_to m) = fst (state (m - 1)).
Proof.
  intros Hm. unfold idx_last2. rewrite length_ks_upto.
  replace (S m - 2) with (m - 1) by lia. apply idx_ks_upto. lia.
Qed.

Lemma idx_last2_hs_upto m : 1 <= m -> idx_last2 (hs_to m) = snd (state (m - 1)).
Proof.
  intros Hm. unfold idx_last2. rewrite length_hs_upto.
  replace (S m - 2) with (m - 1) by lia. apply idx_hs_upto. lia.
Qed.

(** The two [append]s extend both lists by the next state. *)
Lemma append_next_upto m :
  append_next kmap hmap m (ks_to m) (hs_to m) = (ks_to (S m), hs_to (S m)).
Proof.
  unfold append_next. cbv zeta.
  assert (Hk : idx (ks_to m ++ [kmap (idx (ks_to m) m) (idx (hs_to m) m)]) m
               = idx (ks_to m) m).
  { unfold idx. apply app_nth1. rewrite length_ks_upto. lia. }
  rewrite Hk, ks_upto_S, hs_upto_S.
  rewrite !idx_ks_upto, !idx_hs_upto by lia.
  reflexivity.
Qed.

Lemma margin_reached_upto m :
  1 <= m -> margin_reached tol (ks_to m) (hs_to m) = moved m.
Proof.
  intros Hm. unfold margin_reached, moved_less.
  now rewrite idx_last_ks_upto, idx_last_hs_upto, idx_last2_ks_upto, idx_last2_hs_upto.
Qed.

(** The first pass of a driver builds the lists of the states 0 and 1. *)
Lemma simulate_unfold :
  simulate kmap hmap tol maxit k0 h0 = loop (maxit - 1) 1 (ks_to 1) (hs_to 1).
Proof. reflexivity. Qed.

(** From position [i] on, the loop stops at the first position [m] whose
    state moved less than the margin (first [break]), or at [maxit - 1] when
    there is none (second [break]). *)
Lemma while_loop_stops fuel : forall i,
  1 <= i -> i + fuel = maxit -> 1 <= fuel ->
  exists m, i <= m <= maxit - 1
    /\ (forall j, i <= j < m -> moved j = false)
    /\ ((moved m = true
         /\ loop fuel i (ks_to i) (hs_to i) = Converged (ks_to m) (hs_to m))
        \/ (moved m = false /\ m = maxit - 1
            /\ loop fuel i (ks_to i) (hs_to i) = NotConverged (ks_to m) (hs_to m))).
Proof.
  induction fuel as [|fuel IH]; intros i Hi Hsum Hfuel; [lia|].
  cbn [while_loop]. rewrite margin_reached_upto by assumption.
  destruct (moved_less kmap hmap tol k0 h0 i) eqn:Hnear.
  - exists i. repeat split; try lia. now left.
  - destruct (Nat.eqb_spec i (maxit - 1)) as [Hend|Hend].
    + exists i. repeat split; try lia. right. now rewrite <- Hend.
    + rewrite append_next_upto.
      destruct (IH (S i)) as (m & Hm & Hbefore & Hres); try lia.
      exists m. split; [lia|]. split; [|exact Hres].
      intros j Hj. destruct (Nat.eq_dec j i) as [->|Hne]; [assumption|].
      apply Hbefore. lia.
Qed.

Lemma simulate_stops :
  2 <= maxit ->
  exists m, 1 <= m <= maxit - 1
    /\ (forall j, 1 <= j < m -> moved j = false)
    /\ ((moved m = true
         /\ simulate kmap hmap tol maxit k0 h0 = Converged (ks_to m) (hs_to m))
        \/ (moved m = false /\ m = maxit - 1
            /\ simulate kmap hmap tol maxit k0 h0 = NotConverged (ks_to m) (hs_to m))).
Proof.
  intros Hmax. rewrite simulate_unfold. apply while_loop_stops; lia.
Qed.

(** With a bound below 2 the [while] is never entered. *)
Lemma simulate_small_bound :
  maxit <= 1 -> simulate kmap hmap tol maxit k0 h0 = Unbound.
Proof.
  intros Hmax. rewrite simulate_unfold.
  replace (maxit - 1) with 0 by lia. reflexivity.
Qed.

End TrajectoryFacts.

Lemma max_iter_ge_2 : 2 <= max_iter.
Proof. unfold max_iter. lia. Qed.

(** ** Which way a call leaves the guards, over any arithmetic *)

Section Guards.
Context {F : Type} {num : PyNum F}.
Local Open Scope num_scope.

Lemma run_CD_cases tol maxit k0 h0 sk sh alpha phi n g delta :
  (exists w, run_CD tol maxit k0 h0 sk sh alpha phi n g delta = Warning w)
  \/ run_CD tol maxit k0 h0 sk sh alpha phi n g delta
     = simulate (fun k h => kt_plus1_func k h alpha n g sh sk delta phi)
                (fun k h => ht_plus1_func k h alpha n g sh sk delta phi)
                tol maxit k0 h0.
Proof.
  unfold run_CD.
  destruct ((sk + sh >=? one) && (alpha + phi >=? one)); [left; eauto|].
  destruct (alpha + phi >=? one); [left; eauto|].
  destruct (sk + sh >=? one); [left; eauto|].
  destruct (n + g + delta + n * g <=? zero); [left; eauto|].
  now right.
Qed.

Lemma run_CES_cases tol maxit k0 h0 sk sh alpha phi sigma n g delta :
  (exists w, run_CES tol maxit k0 h0 sk sh alpha phi sigma n g delta = Warning w)
  \/ run_CES tol maxit k0 h0 sk sh alpha phi sigma n g delta
     = simulate (fun k h => kt1 k h sk alpha phi sigma n g delta)
                (fun k h => ht1 k h sh alpha phi sigma n g delta)
                tol maxit k0 h0.
Proof.
  unfold run_CES.
  destruct ((sk + sh >=? one) && (alpha + phi >=? one)); [left; eauto|].
  destruct (alpha + phi >=? one); [left; eauto|].
  destruct (sk + sh >=? one); [left; eauto|].
  destruct (n + g + delta =? zero); [left; eauto|].
  now right.
Qed.

Lemma run_CES_through tol maxit k0 h0 sk sh alpha phi sigma n g delta :
  (sk + sh >=? one) = false -> (alpha + phi >=? one) = false ->
  (n + g + delta =? zero) = false ->
  run_CES tol maxit k0 h0 sk sh alpha phi sigma n g delta
  = simulate (fun k h => kt1 k h sk alpha phi sigma n g delta)
             (fun k h => ht1 k h sh alpha phi sigma n g delta)
             tol maxit k0 h0.
Proof. intros E1 E2 E3. unfold run_CES. now rewrite E1, E2, E3. Qed.

End Guards.

(** ** The model over the real numbers *)

Section RealArith.
Local Open Scope R_scope.

Lemma Rltb_true x y : Rltb x y = true <-> x < y.
Proof. unfold Rltb. destruct (Rlt_dec x y); split; intros; (assumption || easy). Qed.

Lemma Rltb_false x y : Rltb x y = false <-> y <= x.
Proof. unfold Rltb. destruct (Rlt_dec x y); split; intros; (lra || easy). Qed.

Lemma Rleb_true x y : Rleb x y = true <-> x <= y.
Proof. unfold Rleb. destruct (Rle_dec x y); split; intros; (assumption || easy). Qed.

Lemma Rleb_false x y : Rleb x y = false <-> y < x.
Proof. unfold Rleb. destruct (Rle_dec x y); split; intros; (lra || easy). Qed.

Lemma Reqb_true x y : Reqb x y = true <-> x = y.
Proof. unfold Reqb. destruct (Req_dec_T x y); split; intros; (assumption || easy). Qed.

Lemma Rpower_base_1 y : Rpower 1 y = 1.
Proof. unfold Rpower. rewrite ln_1, Rmult_0_r. apply exp_0. Qed.

End RealArith.

Section RealMaps.
Local Open Scope R_scope.

Lemma kt_plus1_func_real k h alpha n g sh sk delta phi :
  kt_plus1_func k h alpha n g sh sk delta phi
  = 1 / ((1 + n) * (1 + g))
    * (sk * Rpower k alpha * Rpower h phi - (n + g + delta + n * g) * k) + k.
Proof. reflexivity. Qed.

Lemma ht_plus1_func_real k h alpha n g sh sk delta phi :
  ht_plus1_func k h alpha n g sh sk delta phi
  = 1 / ((1 + n) * (1 + g))
    * (sh * Rpower k alpha * Rpower h phi - (n + g + delta + n * g) * h) + h.
Proof. reflexivity. Qed.

Lemma kt1_real k h sk alpha phi sigma n g delta :
  kt1 k h sk alpha phi sigma n g delta
  = 1 / ((1 + n) * (1 + g))
    * (sk * Rpower (ces_Z k h alpha phi sigma) (sigma / (sigma - 1))
       - (n + g + delta + n * g) * k + k).
Proof. reflexivity. Qed.

Lemma ht1_real k h sh alpha phi sigma n g delta :
  ht1 k h sh alpha phi sigma n g delta
  = 1 / ((1 + n) * (1 + g))
    * (sh * Rpower (ces_Z k h alpha phi sigma) (sigma / (sigma - 1))
       - (n + g + delta + n * g) * h) + h.
Proof. reflexivity. Qed.

(** The human-capital equation of the CES model is the stated one. *)
Lemma ht1_is_ces_next k h sh alpha phi sigma n g delta :
  ht1 k h sh alpha phi sigma n g delta = ces_next sh h k h alpha phi sigma n g delta.
Proof. rewrite ht1_real. unfold ces_next, Rdiv. ring. Qed.

(** X2.  In [kt1] the closing parenthesis comes after [+tilkt]: the added
    [tilkt] is divided by (1+n)(1+g) as well, so [kt1] is the stated CES
    equation minus k (1 - 1/[(1+n)(1+g)]). *)
Lemma kt1_misplaced_term k h sk alpha phi sigma n g delta :
  kt1 k h sk alpha phi sigma n g delta
  = ces_next sk k k h alpha phi sigma n g delta
    - k * (1 - 1 / ((1 + n) * (1 + g))).
Proof. rewrite kt1_real. unfold ces_next, Rdiv. ring. Qed.

Lemma ces_Z_at_1 alpha phi sigma : ces_Z 1 1 alpha phi sigma = 1.
Proof. unfold ces_Z. rewrite Rpower_base_1. ring. Qed.

End RealMaps.

Section MapClaims.
Local Open Scope R_scope.

(** C7.  For a positive state and valid parameters, the Cobb-Douglas
    transition functions return
    k + [s_K k^alpha h^phi - (n+g+delta+ng) k] / [(1+n)(1+g)] and
    h + [s_H k^alpha h^phi - (n+g+delta+ng) h] / [(1+n)(1+g)]. *)
Theorem cobb_douglas_transition_formula k h sk sh alpha phi n g delta :
  0 < k -> 0 < h -> valid_parameters sk sh alpha phi n g delta ->
  kt_plus1_func k h alpha n g sh sk delta phi
  = k + (sk * Rpower k alpha * Rpower h phi - (n + g + delta + n * g) * k)
        / ((1 + n) * (1 + g))
  /\ ht_plus1_func k h alpha n g sh sk delta phi
     = h + (sh * Rpower k alpha * Rpower h phi - (n + g + delta + n * g) * h)
           / ((1 + n) * (1 + g)).
Proof.
  intros _ _ _. rewrite kt_plus1_func_real, ht_plus1_func_real.
  unfold Rdiv. split; ring.
Qed.

Lemma cobb_douglas_transition_formula_witness :
  kt_plus1_func 4 6 (1/3) (2/100) (2/100) (15/100) (1/10) (5/100) (1/3)
  = 4 + (1/10 * Rpower 4 (1/3) * Rpower 6 (1/3)
         - (2/100 + 2/100 + 5/100 + 2/100 * (2/100)) * 4)
        / ((1 + 2/100) * (1 + 2/100))
  /\ ht_plus1_func 4 6 (1/3) (2/100) (2/100) (15/100) (1/10) (5/100) (1/3)
     = 6 + (15/100 * Rpower 4 (1/3) * Rpower 6 (1/3)
            - (2/100 + 2/100 + 5/100 + 2/100 * (2/100)) * 6)
           / ((1 + 2/100) * (1 + 2/100)).
Proof.
  apply (@cobb_douglas_transition_formula 4 6 (1/10) (15/100) (1/3) (1/3)
           (2/100) (2/100) (5/100)); [lra | lra | unfold valid_parameters; lra].
Defined.

(** C1.  The CES transition functions against the stated equations, at
    k = h = 1 with the standard calibration and sigma = 1.5: [kt1] returns
    1.0096/1.0404 where the stated equation for k gives 1.05/1.0404 (in the
    code the added k is inside the factor 1/[(1+n)(1+g)]), and [ht1] returns
    what the stated equation for h gives. *)
Theorem kt1_differs_from_ces_equation :
  kt1 1 1 (1/10) (1/3) (1/3) (3/2) (2/100) (2/100) (5/100) = 10096 / 10404
  /\ ces_next (1/10) 1 1 1 (1/3) (1/3) (3/2) (2/100) (2/100) (5/100) = 10500 / 10404
  /\ ht1 1 1 (15/100) (1/3) (1/3) (3/2) (2/100) (2/100) (5/100)
     = ces_next (15/100) 1 1 1 (1/3) (1/3) (3/2) (2/100) (2/100) (5/100).
Proof.
  split; [|split].
  - rewrite kt1_real, ces_Z_at_1, Rpower_base_1. field.
  - unfold ces_next. rewrite ces_Z_at_1, Rpower_base_1. field.
  - apply ht1_is_ces_next.
Qed.

(** C5.  At k = h = 1, sigma = 1.0001 and the standard calibration the
    human-capital coordinates of the CES and the Cobb-Douglas functions
    coincide, and the physical-capital coordinates differ by
    1 - 1/1.0404 = 0.0388..., which is more than 1e-3. *)
Theorem ces_limit_gap_at_unit_state :
  ht1 1 1 (15/100) (1/3) (1/3) (10001/10000) (2/100) (2/100) (5/100)
  = ht_plus1_func 1 1 (1/3) (2/100) (2/100) (15/100) (1/10) (5/100) (1/3)
  /\ kt_plus1_func 1 1 (1/3) (2/100) (2/100) (15/100) (1/10) (5/100) (1/3)
     - kt1 1 1 (1/10) (1/3) (1/3) (10001/10000) (2/100) (2/100) (5/100)
     = 404 / 10404
  /\ 1 / 1000
     < Rabs (kt1 1 1 (1/10) (1/3) (1/3) (10001/10000) (2/100) (2/100) (5/100)
             - kt_plus1_func 1 1 (1/3) (2/100) (2/100) (15/100) (1/10) (5/100) (1/3)).
Proof.
  assert (Hgap :
    kt_plus1_func 1 1 (1/3) (2/100) (2/100) (15/100) (1/10) (5/100) (1/3)
    - kt1 1 1 (1/10) (1/3) (1/3) (10001/10000) (2/100) (2/100) (5/100)
    = 404 / 10404).
  { rewrite kt1_real, kt_plus1_func_real, ces_Z_at_1, !Rpower_base_1. field. }
  split; [|split].
  - rewrite ht1_real, ht_plus1_func_real, ces_Z_at_1, !Rpower_base_1. field.
  - exact Hgap.
  - rewrite Rabs_minus_sym, Hgap, Rabs_pos_eq; lra.
Qed.

End MapClaims.

Section SteadyState.
Local Open Scope R_scope.

Lemma Rpower_exp u y : Rpower (exp u) y = exp (y * u).
Proof. unfold Rpower. now rewrite ln_exp. Qed.

Lemma exp_ln_pos x : 0 < x -> x = exp (ln x).
Proof. intros Hx. symmetry. now apply exp_ln. Qed.

Variables sk sh alpha phi n g delta : R.
Hypothesis Hvalid : valid_parameters sk sh alpha phi n g delta.

(** Logarithm of the steady-state physical capital. *)
Let D := delta + g * n + g + n.
Let kappa := - (phi / (phi + alpha - 1)) * ln sh
             + 1 / (phi + alpha - 1) * ((phi - 1) * ln sk + ln D).
Let eta := 1 / (phi - 1) * (- alpha * kappa + ln D - ln sh).

Lemma ktilstar_exp : _ktilstar_sol sh phi alpha sk delta g n = exp kappa.
Proof.
  destruct Hvalid as (Hsk & Hsh & _ & _ & _ & _ & HD).
  assert (HD' : 0 < D) by (unfold D; lra).
  unfold _ktilstar_sol. real_ops. fold D.
  rewrite (exp_ln_pos Hsh) at 1. rewrite (exp_ln_pos Hsk) at 1.
  rewrite (exp_ln_pos HD') at 1.
  rewrite !Rpower_exp, <- exp_plus, Rpower_exp, <- exp_plus.
  unfold kappa. f_equal.
Qed.

Lemma htilstar_exp : _htilstar_sol sh phi alpha sk delta g n = exp eta.
Proof.
  destruct Hvalid as (Hsk & Hsh & _ & _ & _ & _ & HD).
  assert (HD' : 0 < D) by (unfold D; lra).
  unfold _htilstar_sol. rewrite ktilstar_exp. real_ops. fold D.
  rewrite (exp_ln_pos Hsh) at 1. rewrite (exp_ln_pos HD') at 1.
  unfold Rdiv. rewrite <- exp_Ropp.
  rewrite !Rpower_exp, <- !exp_plus, Rpower_exp.
  unfold eta. f_equal.
Qed.

Lemma steady_state_k_balance :
  sk * Rpower (exp kappa) alpha * Rpower (exp eta) phi
  = (n + g + delta + n * g) * exp kappa.
Proof.
  destruct Hvalid as (Hsk & Hsh & _ & Ha & Hp & Hap & HD).
  assert (HD' : 0 < D) by (unfold D; lra).
  replace (n + g + delta + n * g) with D by (unfold D; ring).
  rewrite (exp_ln_pos Hsk) at 1. rewrite (exp_ln_pos HD') at 1.
  rewrite !Rpower_exp, <- !exp_plus. f_equal.
  unfold eta, kappa. field. lra.
Qed.

Lemma steady_state_h_balance :
  sh * Rpower (exp kappa) alpha * Rpower (exp eta) phi
  = (n + g + delta + n * g) * exp eta.
Proof.
  destruct Hvalid as (Hsk & Hsh & _ & Ha & Hp & Hap & HD).
  assert (HD' : 0 < D) by (unfold D; lra).
  replace (n + g + delta + n * g) with D by (unfold D; ring).
  rewrite (exp_ln_pos Hsh) at 1. rewrite (exp_ln_pos HD') at 1.
  rewrite !Rpower_exp, <- !exp_plus. f_equal.
  unfold eta. field. lra.
Qed.

Lemma steady_state_positive :
  0 < _ktilstar_sol sh phi alpha sk delta g n
  /\ 0 < _htilstar_sol sh phi alpha sk delta g n.
Proof. rewrite ktilstar_exp, htilstar_exp. split; apply exp_pos. Qed.


(** The closed form balances saving and dilution in both equations. *)
Lemma steady_state_balance :
  sk * Rpower (_ktilstar_sol sh phi alpha sk delta g n) alpha
     * Rpower (_htilstar_sol sh phi alpha sk delta g n) phi
  = (n + g + delta + n * g) * _ktilstar_sol sh phi alpha sk delta g n
  /\ sh * Rpower (_ktilstar_sol sh phi alpha sk delta g n) alpha
        * Rpower (_htilstar_sol sh phi alpha sk delta g n) phi
     = (n + g + delta + n * g) * _htilstar_sol sh phi alpha sk delta g n.
Proof.
  rewrite ktilstar_exp, htilstar_exp.
  split; [apply steady_state_k_balance|apply steady_state_h_balance].
Qed.

Lemma steady_state_log_ratio : eta - kappa = ln sh - ln sk.
Proof.
  destruct Hvalid as (_ & _ & _ & Ha & Hp & Hap & _).
  unfold eta, kappa. field. lra.
Qed.

(** X5.  For valid parameters both steady-state values are positive and
    stand in the ratio of the two savings rates: s_K h* = s_H k*. *)
Theorem steady_state_ratio :
  0 < _ktilstar_sol sh phi alpha sk delta g n
  /\ 0 < _htilstar_sol sh phi alpha sk delta g n
  /\ sk * _htilstar_sol sh phi alpha sk delta g n
     = sh * _ktilstar_sol sh phi alpha sk delta g n.
Proof.
  destruct Hvalid as (Hsk & Hsh & _).
  rewrite ktilstar_exp, htilstar_exp.
  split; [apply exp_pos|]. split; [apply exp_pos|].
  rewrite (exp_ln_pos Hsk) at 1. rewrite (exp_ln_pos Hsh) at 1.
  rewrite <- !exp_plus. f_equal.
  pose proof steady_state_log_ratio. lra.
Qed.

(** A positive state that the two Cobb-Douglas functions leave unchanged has
    the logarithms [kappa] and [eta]. *)
Lemma fixed_state_logs k h :
  (1 + n) * (1 + g) <> 0 -> 0 < k -> 0 < h ->
  kt_plus1_func k h alpha n g sh sk delta phi = k ->
  ht_plus1_func k h alpha n g sh sk delta phi = h ->
  ln k = kappa /\ ln h = eta.
Proof.
  intros Hd Hk Hh Ek Eh.
  destruct Hvalid as (Hsk & Hsh & _ & Ha & Hp & Hap & HD).
  assert (HD' : 0 < D) by (unfold D; lra).
  assert (Hc : 1 / ((1 + n) * (1 + g)) <> 0).
  { unfold Rdiv. rewrite Rmult_1_l. now apply Rinv_neq_0_compat. }
  rewrite kt_plus1_func_real in Ek. rewrite ht_plus1_func_real in Eh.
  assert (Bk : sk * Rpower k alpha * Rpower h phi = D * k).
  { assert (Hz : 1 / ((1 + n) * (1 + g))
                 * (sk * Rpower k alpha * Rpower h phi - (n + g + delta + n * g) * k) = 0)
      by lra.
    apply Rmult_integral in Hz. destruct Hz as [Hz|Hz]; [contradiction|].
    unfold D. lra. }
  assert (Bh : sh * Rpower k alpha * Rpower h phi = D * h).
  { assert (Hz : 1 / ((1 + n) * (1 + g))
                 * (sh * Rpower k alpha * Rpower h phi - (n + g + delta + n * g) * h) = 0)
      by lra.
    apply Rmult_integral in Hz. destruct Hz as [Hz|Hz]; [contradiction|].
    unfold D. lra. }
  unfold Rpower in Bk, Bh.
  rewrite (exp_ln_pos Hsk) in Bk at 1. rewrite (exp_ln_pos HD') in Bk at 1.
  rewrite (exp_ln_pos Hk) in Bk at 2.
  rewrite (exp_ln_pos Hsh) in Bh at 1. rewrite (exp_ln_pos HD') in Bh at 1.
  rewrite (exp_ln_pos Hh) in Bh at 2.
  rewrite <- !exp_plus in Bk, Bh.
  apply exp_inv in Bk. apply exp_inv in Bh.
  assert (Hy : ln h = ln k + ln sh - ln sk) by lra.
  assert (Hx : (phi + alpha - 1) * ln k = - phi * ln sh + (phi - 1) * ln sk + ln D).
  { rewrite Hy in Bk. ring_simplify in Bk. ring_simplify. lra. }
  assert (Ex : ln k = kappa).
  { apply (Rmult_eq_reg_l (phi + alpha - 1)); [|lra].
    rewrite Hx. unfold kappa. field. lra. }
  split; [exact Ex|].
  pose proof steady_state_log_ratio. lra.
Qed.

(** X6.  For valid parameters and a nonzero divisor (1+n)(1+g), the closed
    form is the only positive state that one application of the
    Cobb-Douglas transition functions leaves unchanged. *)
Theorem positive_steady_state_unique k h :
  (1 + n) * (1 + g) <> 0 -> 0 < k -> 0 < h ->
  kt_plus1_func k h alpha n g sh sk delta phi = k ->
  ht_plus1_func k h alpha n g sh sk delta phi = h ->
  k = _ktilstar_sol sh phi alpha sk delta g n
  /\ h = _htilstar_sol sh phi alpha sk delta g n.
Proof.
  intros Hd Hk Hh Ek Eh.
  destruct (fixed_state_logs Hd Hk Hh Ek Eh) as [Ex Ey].
  rewrite ktilstar_exp, htilstar_exp, <- Ex, <- Ey.
  split; now apply exp_ln_pos.
Qed.

End SteadyState.


(** ** The drivers over the real numbers *)

Section RealRuns.
Local Open Scope R_scope.

Lemma moved_less_true kmap hmap tol k0 h0 j :
  moved_less kmap hmap tol k0 h0 j = true <-> within_margin kmap hmap tol k0 h0 j.
Proof.
  unfold moved_less, within_margin. real_ops.
  rewrite andb_true_iff, !Rltb_true. tauto.
Qed.

Lemma moved_less_false kmap hmap tol k0 h0 j :
  moved_less kmap hmap tol k0 h0 j = false <-> ~ within_margin kmap hmap tol k0 h0 j.
Proof.
  rewrite <- moved_less_true. destruct (moved_less kmap hmap tol k0 h0 j); split; intros; (easy || congruence).
Qed.

Lemma valid_passes_CD sk sh alpha phi n g delta :
  valid_parameters sk sh alpha phi n g delta -> passes_CD sk sh alpha phi n g delta.
Proof. unfold valid_parameters, passes_CD. tauto. Qed.

(** For valid parameters with a depreciation rate of at most 1 (the range
    of the slider) the divisor (1+n)(1+g) of the transition equations is
    positive. *)
Lemma growth_factor_positive sk sh alpha phi n g delta :
  valid_parameters sk sh alpha phi n g delta -> delta <= 1 -> 0 < (1 + n) * (1 + g).
Proof.
  intros (_ & _ & _ & _ & _ & _ & HD) Hd.
  replace ((1 + n) * (1 + g)) with (n + g + delta + n * g + (1 - delta)) by ring.
  lra.
Qed.

Lemma run_CD_simulate tol maxit k0 h0 sk sh alpha phi n g delta :
  passes_CD sk sh alpha phi n g delta ->
  run_CD tol maxit k0 h0 sk sh alpha phi n g delta
  = simulate (fun k h => kt_plus1_func k h alpha n g sh sk delta phi)
             (fun k h => ht_plus1_func k h alpha n g sh sk delta phi)
             tol maxit k0 h0.
Proof.
  intros (Hs & Ha & HD). unfold run_CD. real_ops.
  assert (E1 : Rleb 1 (sk + sh) = false) by (apply Rleb_false; lra).
  assert (E2 : Rleb 1 (alpha + phi) = false) by (apply Rleb_false; lra).
  assert (E3 : Rleb (n + g + delta + n * g) 0 = false) by (apply Rleb_false; lra).
  now rewrite E1, E2, E3.
Qed.

Lemma run_CES_simulate tol maxit k0 h0 sk sh alpha phi sigma n g delta :
  passes_CES sk sh alpha phi n g delta ->
  run_CES tol maxit k0 h0 sk sh alpha phi sigma n g delta
  = simulate (fun k h => kt1 k h sk alpha phi sigma n g delta)
             (fun k h => ht1 k h sh alpha phi sigma n g delta)
             tol maxit k0 h0.
Proof.
  intros (Hs & Ha & HD). unfold run_CES. real_ops.
  assert (E1 : Rleb 1 (sk + sh) = false) by (apply Rleb_false; lra).
  assert (E2 : Rleb 1 (alpha + phi) = false) by (apply Rleb_false; lra).
  assert (E3 : Reqb (n + g + delta) 0 = false).
  { destruct (Reqb (n + g + delta) 0) eqn:E; [|reflexivity].
    apply Reqb_true in E. contradiction. }
  now rewrite E1, E2, E3.
Qed.

Lemma run_CD_warning tol maxit k0 h0 sk sh alpha phi n g delta :
  1 <= sk + sh \/ 1 <= alpha + phi \/ n + g + delta + n * g <= 0 ->
  exists w, run_CD tol maxit k0 h0 sk sh alpha phi n g delta = Warning w.
Proof.
  intros H. unfold run_CD. real_ops.
  destruct (Rleb 1 (sk + sh)) eqn:E1, (Rleb 1 (alpha + phi)) eqn:E2;
    cbn [andb]; eauto.
  destruct (Rleb (n + g + delta + n * g) 0) eqn:E3; eauto.
  apply Rleb_false in E1, E2, E3. lra.
Qed.

Lemma run_CES_warning tol maxit k0 h0 sk sh alpha phi sigma n g delta :
  1 <= sk + sh \/ 1 <= alpha + phi ->
  exists w, run_CES tol maxit k0 h0 sk sh alpha phi sigma n g delta = Warning w.
Proof.
  intros H. unfold run_CES. real_ops.
  destruct (Rleb 1 (sk + sh)) eqn:E1, (Rleb 1 (alpha + phi)) eqn:E2;
    cbn [andb]; eauto.
  apply Rleb_false in E1, E2. lra.
Qed.

(** The loop never ends in a warning. *)
Lemma simulate_not_warning (kmap hmap : R -> R -> R) tol maxit k0 h0 w :
  simulate kmap hmap tol maxit k0 h0 <> Warning w.
Proof.
  destruct (le_lt_dec 2 maxit) as [Hmax|Hmax].
  - destruct (simulate_stops kmap hmap tol k0 h0 Hmax)
      as (m & _ & _ & [(_ & ->)|(_ & _ & ->)]); discriminate.
  - rewrite simulate_small_bound by lia. discriminate.
Qed.

End RealRuns.

Section RunClaims.
Local Open Scope R_scope.

Lemma simulate_converged_iff kmap hmap tol maxit k0 h0 ks hs :
  simulate kmap hmap tol maxit k0 h0 = Converged ks hs
  <-> first_within_margin kmap hmap tol maxit k0 h0 ks hs.
Proof.
  destruct (le_lt_dec 2 maxit) as [Hmax|Hmax].
  - destruct (simulate_stops kmap hmap tol k0 h0 Hmax)
      as (m & Hm & Hbefore & Hres).
    split.
    + intros Hrun.
      destruct Hres as [(Hnear & Heq)|(_ & _ & Heq)]; rewrite Heq in Hrun;
        [|discriminate].
      injection Hrun as <- <-. exists m. repeat split; try lia.
      * now apply moved_less_true.
      * now apply moved_less_true.
      * intros j Hj. apply moved_less_false, Hbefore. lia.
    + intros (m' & Hm' & -> & -> & Hnear' & Hbefore').
      assert (Hmm : m = m').
      { destruct (lt_eq_lt_dec m m') as [[Hlt|Heq]|Hgt]; [|assumption|].
        - exfalso. destruct Hres as [(Hnear & _)|(_ & Hend & _)]; [|lia].
          apply (Hbefore' m); [lia|]. now apply moved_less_true.
        - exfalso. apply moved_less_true in Hnear'.
          rewrite Hbefore in Hnear' by lia. discriminate. }
      subst m'. destruct Hres as [(_ & Heq)|(Hfar & _ & _)]; [assumption|].
      apply moved_less_true in Hnear'. congruence.
  - rewrite simulate_small_bound by lia. split; [discriminate|].
    intros (m & Hm & _). lia.
Qed.

Lemma not_passes_CD sk sh alpha phi n g delta :
  ~ passes_CD sk sh alpha phi n g delta ->
  1 <= sk + sh \/ 1 <= alpha + phi \/ n + g + delta + n * g <= 0.
Proof.
  unfold passes_CD. intros H.
  destruct (Rlt_dec (sk + sh) 1); [|lra].
  destruct (Rlt_dec (alpha + phi) 1); [|lra].
  destruct (Rlt_dec 0 (n + g + delta + n * g)); [|lra].
  tauto.
Qed.

Lemma run_CD_converged_passes tol maxit k0 h0 sk sh alpha phi n g delta ks hs :
  run_CD tol maxit k0 h0 sk sh alpha phi n g delta = Converged ks hs ->
  passes_CD sk sh alpha phi n g delta.
Proof.
  intros Hrun.
  destruct (Rlt_dec (sk + sh) 1) as [H1|H1];
    [destruct (Rlt_dec (alpha + phi) 1) as [H2|H2];
     [destruct (Rlt_dec 0 (n + g + delta + n * g)) as [H3|H3]|]|].
  - unfold passes_CD. tauto.
  - destruct (@run_CD_warning tol maxit k0 h0 sk sh alpha phi n g delta) as [w Hw];
      [lra|congruence].
  - destruct (@run_CD_warning tol maxit k0 h0 sk sh alpha phi n g delta) as [w Hw];
      [lra|congruence].
  - destruct (@run_CD_warning tol maxit k0 h0 sk sh alpha phi n g delta) as [w Hw];
      [lra|congruence].
Qed.

Lemma run_CES_converged_passes tol maxit k0 h0 sk sh alpha phi sigma n g delta ks hs :
  run_CES tol maxit k0 h0 sk sh alpha phi sigma n g delta = Converged ks hs ->
  passes_CES sk sh alpha phi n g delta.
Proof.
  intros Hrun.
  destruct (Rlt_dec (sk + sh) 1) as [H1|H1];
    [destruct (Rlt_dec (alpha + phi) 1) as [H2|H2]|].
  - unfold passes_CES. repeat split; try assumption.
    intros H0. revert Hrun. unfold run_CES. real_ops.
    replace (Reqb (n + g + delta) 0) with true by (symmetry; now apply Reqb_true).
    destruct (Rleb 1 (sk + sh) && Rleb 1 (alpha + phi)),
             (Rleb 1 (alpha + phi)), (Rleb 1 (sk + sh)); discriminate.
  - destruct (@run_CES_warning tol maxit k0 h0 sk sh alpha phi sigma n g delta)
      as [w Hw]; [lra|congruence].
  - destruct (@run_CES_warning tol maxit k0 h0 sk sh alpha phi sigma n g delta)
      as [w Hw]; [lra|congruence].
Qed.

(** C6.  A driver ends with Converged and the lists [ks], [hs] exactly when
    the call passes the guards and the lists hold the states 0..m for the
    first step m >= 1 after which both coordinates (not just one of them)
    moved by less than the margin; the lists then hold at least two
    states. *)
Theorem converged_iff_both_within_margin
    tol maxit k0 h0 sk sh alpha phi sigma n g delta ks hs :
  (run_CD tol maxit k0 h0 sk sh alpha phi n g delta = Converged ks hs
   <-> passes_CD sk sh alpha phi n g delta
       /\ first_within_margin
            (fun k h => kt_plus1_func k h alpha n g sh sk delta phi)
            (fun k h => ht_plus1_func k h alpha n g sh sk delta phi)
            tol maxit k0 h0 ks hs)
  /\ (run_CES tol maxit k0 h0 sk sh alpha phi sigma n g delta = Converged ks hs
      <-> passes_CES sk sh alpha phi n g delta
          /\ first_within_margin
               (fun k h => kt1 k h sk alpha phi sigma n g delta)
               (fun k h => ht1 k h sh alpha phi sigma n g delta)
               tol maxit k0 h0 ks hs).
Proof.
  split; split.
  - intros Hrun. pose proof (run_CD_converged_passes _ _ _ _ _ _ _ _ _ _ _ Hrun) as Hp.
    split; [assumption|]. rewrite run_CD_simulate in Hrun by assumption.
    now apply simulate_converged_iff.
  - intros (Hp & Hfirst). rewrite run_CD_simulate by assumption.
    now apply simulate_converged_iff.
  - intros Hrun. pose proof (run_CES_converged_passes _ _ _ _ _ _ _ _ _ _ _ _ Hrun) as Hp.
    split; [assumption|]. rewrite run_CES_simulate in Hrun by assumption.
    now apply simulate_converged_iff.
  - intros (Hp & Hfirst). rewrite run_CES_simulate by assumption.
    now apply simulate_converged_iff.
Qed.

End RunClaims.

Section RunClaims2.
Local Open Scope R_scope.

(** A smaller margin is reached no earlier. *)
Lemma simulate_length_monotone kmap hmap t1 t2 maxit k0 h0 :
  t2 <= t1 ->
  (trajectory_length (simulate kmap hmap t1 maxit k0 h0)
   <= trajectory_length (simulate kmap hmap t2 maxit k0 h0))%nat.
Proof.
  intros Ht. destruct (le_lt_dec 2 maxit) as [Hmax|Hmax].
  - destruct (simulate_stops kmap hmap t1 k0 h0 Hmax) as (m1 & Hm1 & Hb1 & Hr1).
    destruct (simulate_stops kmap hmap t2 k0 h0 Hmax) as (m2 & Hm2 & Hb2 & Hr2).
    assert (Hlen1 : trajectory_length (simulate kmap hmap t1 maxit k0 h0) = S m1).
    { destruct Hr1 as [(_ & ->)|(_ & _ & ->)]; apply length_ks_upto. }
    assert (Hlen2 : trajectory_length (simulate kmap hmap t2 maxit k0 h0) = S m2).
    { destruct Hr2 as [(_ & ->)|(_ & _ & ->)]; apply length_ks_upto. }
    rewrite Hlen1, Hlen2. apply le_n_S.
    destruct (le_lt_dec m1 m2) as [Hle|Hlt]; [assumption|exfalso].
    destruct Hr2 as [(Hnear2 & _)|(_ & Hend & _)]; [|lia].
    apply moved_less_true in Hnear2. destruct Hnear2 as (Hk & Hh).
    assert (Hfar1 : moved_less kmap hmap t1 k0 h0 m2 = false) by (apply Hb1; lia).
    apply moved_less_false in Hfar1. apply Hfar1. split; lra.
  - rewrite !simulate_small_bound by lia. apply le_n.
Qed.

(** C8.  With everything else fixed, the number of states a driver ends
    with does not shrink when the margin is tightened: for margins
    t1 > t2 > 0 the run with t2 has at least as many states as the run
    with t1. *)
Theorem trajectory_length_monotone_in_margin
    t1 t2 maxit k0 h0 sk sh alpha phi sigma n g delta :
  0 < t2 -> t2 < t1 ->
  (trajectory_length (run_CD t1 maxit k0 h0 sk sh alpha phi n g delta)
   <= trajectory_length (run_CD t2 maxit k0 h0 sk sh alpha phi n g delta))%nat
  /\ (trajectory_length (run_CES t1 maxit k0 h0 sk sh alpha phi sigma n g delta)
      <= trajectory_length (run_CES t2 maxit k0 h0 sk sh alpha phi sigma n g delta))%nat.
Proof.
  intros _ Ht. split.
  - unfold run_CD.
    destruct ((sk + sh >=? one) && (alpha + phi >=? one))%num; [apply le_n|].
    destruct (alpha + phi >=? one)%num; [apply le_n|].
    destruct (sk + sh >=? one)%num; [apply le_n|].
    destruct (n + g + delta + n * g <=? zero)%num; [apply le_n|].
    apply simulate_length_monotone. lra.
  - unfold run_CES.
    destruct ((sk + sh >=? one) && (alpha + phi >=? one))%num; [apply le_n|].
    destruct (alpha + phi >=? one)%num; [apply le_n|].
    destruct (sk + sh >=? one)%num; [apply le_n|].
    destruct (n + g + delta =? zero)%num; [apply le_n|].
    apply simulate_length_monotone. lra.
Qed.

Lemma trajectory_length_monotone_in_margin_witness :
  le (trajectory_length
        (run_CD (1/1000) max_iter 4 6 (1/10) (15/100) (1/3) (1/3) (2/100) (2/100) (5/100)))
     (trajectory_length
        (run_CD (1/100000000) max_iter 4 6 (1/10) (15/100) (1/3) (1/3) (2/100) (2/100) (5/100)))
  /\ le (trajectory_length
           (run_CES (1/1000) max_iter 4 6 (1/10) (15/100) (1/3) (1/3) (3/2) (2/100) (2/100) (5/100)))
        (trajectory_length
           (run_CES (1/100000000) max_iter 4 6 (1/10) (15/100) (1/3) (1/3) (3/2) (2/100) (2/100) (5/100))).
Proof.
  apply (@trajectory_length_monotone_in_margin (1/1000) (1/100000000) max_iter 4 6
           (1/10) (15/100) (1/3) (1/3) (3/2) (2/100) (2/100) (5/100)); lra.
Defined.

Lemma simulate_first_step kmap hmap tol maxit k0 h0 :
  (2 <= maxit)%nat ->
  Rabs (kmap k0 h0 - k0) < tol -> Rabs (hmap k0 h0 - h0) < tol ->
  simulate kmap hmap tol maxit k0 h0
  = Converged [k0; kmap k0 h0] [h0; hmap k0 h0].
Proof.
  intros Hmax Hk Hh.
  change (Converged [k0; kmap k0 h0] [h0; hmap k0 h0])
    with (Converged (ks_upto kmap hmap k0 h0 1) (hs_upto kmap hmap k0 h0 1)).
  apply simulate_converged_iff. exists 1%nat. repeat split; try lia; assumption.
Qed.

(** C10.  If the first application of the transition functions moves both
    coordinates by less than the margin, the driver ends with Converged on
    exactly two states: the initial one and its image. *)
Theorem first_step_within_margin_converges
    tol maxit k0 h0 sk sh alpha phi sigma n g delta :
  (2 <= maxit)%nat ->
  (passes_CD sk sh alpha phi n g delta ->
   Rabs (kt_plus1_func k0 h0 alpha n g sh sk delta phi - k0) < tol ->
   Rabs (ht_plus1_func k0 h0 alpha n g sh sk delta phi - h0) < tol ->
   run_CD tol maxit k0 h0 sk sh alpha phi n g delta
   = Converged [k0; kt_plus1_func k0 h0 alpha n g sh sk delta phi]
               [h0; ht_plus1_func k0 h0 alpha n g sh sk delta phi])
  /\ (passes_CES sk sh alpha phi n g delta ->
      Rabs (kt1 k0 h0 sk alpha phi sigma n g delta - k0) < tol ->
      Rabs (ht1 k0 h0 sh alpha phi sigma n g delta - h0) < tol ->
      run_CES tol maxit k0 h0 sk sh alpha phi sigma n g delta
      = Converged [k0; kt1 k0 h0 sk alpha phi sigma n g delta]
                  [h0; ht1 k0 h0 sh alpha phi sigma n g delta]).
Proof.
  intros Hmax. split; intros Hp Hk Hh.
  - rewrite run_CD_simulate by assumption.
    now apply (simulate_first_step
                 (fun k h => kt_plus1_func k h alpha n g sh sk delta phi)
                 (fun k h => ht_plus1_func k h alpha n g sh sk delta phi)).
  - rewrite run_CES_simulate by assumption.
    now apply (simulate_first_step
                 (fun k h => kt1 k h sk alpha phi sigma n g delta)
                 (fun k h => ht1 k h sh alpha phi sigma n g delta)).
Qed.

End RunClaims2.

Section RunClaims3.
Local Open Scope R_scope.

Lemma first_step_within_margin_converges_witness :
  interact_CD 1 1 (1/10) (1/10) (1/4) (1/4) 0 0 (1/10)
  = Converged [1; kt_plus1_func 1 1 (1/4) 0 0 (1/10) (1/10) (1/10) (1/4)]
              [1; ht_plus1_func 1 1 (1/4) 0 0 (1/10) (1/10) (1/10) (1/4)]
  /\ interact_CES 1 1 (1/10) (1/10) (1/4) (1/4) (3/2) 0 0 (1/10)
     = Converged [1; kt1 1 1 (1/10) (1/4) (1/4) (3/2) 0 0 (1/10)]
                 [1; ht1 1 1 (1/10) (1/4) (1/4) (3/2) 0 0 (1/10)].
Proof.
  destruct (@first_step_within_margin_converges (1/100000) max_iter 1 1
              (1/10) (1/10) (1/4) (1/4) (3/2) 0 0 (1/10) max_iter_ge_2)
    as [HCD HCES].
  split.
  - apply HCD.
    + unfold passes_CD. lra.
    + rewrite kt_plus1_func_real, !Rpower_base_1.
      match goal with |- Rabs ?x < _ => replace x with 0 by field end.
      rewrite Rabs_R0. lra.
    + rewrite ht_plus1_func_real, !Rpower_base_1.
      match goal with |- Rabs ?x < _ => replace x with 0 by field end.
      rewrite Rabs_R0. lra.
  - apply HCES.
    + unfold passes_CES. repeat split; lra.
    + rewrite kt1_real, ces_Z_at_1, Rpower_base_1.
      match goal with |- Rabs ?x < _ => replace x with 0 by field end.
      rewrite Rabs_R0. lra.
    + rewrite ht1_real, ces_Z_at_1, Rpower_base_1.
      match goal with |- Rabs ?x < _ => replace x with 0 by field end.
      rewrite Rabs_R0. lra.
Defined.

(** C3, as the code has it.  The Cobb-Douglas driver ends in a warning
    exactly when s_K + s_H >= 1, alpha + phi >= 1 or n + g + delta + ng <= 0
    (nothing else about the parameters is tested), and the CES driver ends
    in a warning whenever s_K + s_H >= 1 or alpha + phi >= 1; a call that
    ends in a warning builds no list and applies no transition function. *)
Theorem guards_end_in_warning
    tol maxit k0 h0 sk sh alpha phi sigma n g delta :
  ((exists w, run_CD tol maxit k0 h0 sk sh alpha phi n g delta = Warning w)
   <-> 1 <= sk + sh \/ 1 <= alpha + phi \/ n + g + delta + n * g <= 0)
  /\ (1 <= sk + sh \/ 1 <= alpha + phi \/ n + g + delta + n * g <= 0 ->
      trajectory_length (run_CD tol maxit k0 h0 sk sh alpha phi n g delta) = 0%nat)
  /\ (1 <= sk + sh \/ 1 <= alpha + phi ->
      (exists w, run_CES tol maxit k0 h0 sk sh alpha phi sigma n g delta = Warning w)
      /\ trajectory_length (run_CES tol maxit k0 h0 sk sh alpha phi sigma n g delta) = 0%nat).
Proof.
  split; [split|split].
  - intros [w Hw].
    destruct (Rlt_dec (sk + sh) 1) as [H1|H1]; [|lra].
    destruct (Rlt_dec (alpha + phi) 1) as [H2|H2]; [|lra].
    destruct (Rlt_dec 0 (n + g + delta + n * g)) as [H3|H3]; [|lra].
    exfalso. rewrite run_CD_simulate in Hw by (unfold passes_CD; tauto).
    now apply simulate_not_warning in Hw.
  - apply run_CD_warning.
  - intros H.
    destruct (@run_CD_warning tol maxit k0 h0 sk sh alpha phi n g delta H) as [w Hw].
    now rewrite Hw.
  - intros H.
    destruct (@run_CES_warning tol maxit k0 h0 sk sh alpha phi sigma n g delta H) as [w Hw].
    rewrite Hw. split; [now exists w|reflexivity].
Qed.

Lemma guards_end_in_warning_witness :
  (exists w, interact_CD 4 6 (6/10) (5/10) (1/3) (1/3) (2/100) (2/100) (5/100) = Warning w)
  /\ (exists w, interact_CES 4 6 (6/10) (5/10) (1/3) (1/3) (3/2) (2/100) (2/100) (5/100)
                = Warning w).
Proof.
  destruct (@guards_end_in_warning (1/100000) max_iter 4 6
              (6/10) (5/10) (1/3) (1/3) (3/2) (2/100) (2/100) (5/100))
    as (HCD & _ & HCES).
  split.
  - apply HCD. left. lra.
  - apply HCES. left. lra.
Defined.

(** C3, counterexample.  alpha = 0 violates 0 < alpha, and the
    Cobb-Douglas driver (whose slider for alpha starts at 0) does not warn:
    it runs the loop. *)
Lemma zero_capital_share_is_not_rejected :
  ~ valid_parameters (2/10) (1/10) 0 (1/3) (2/100) (2/100) (5/100)
  /\ forall w,
       interact_CD 10 10 (2/10) (1/10) 0 (1/3) (2/100) (2/100) (5/100) <> Warning w.
Proof.
  split.
  - unfold valid_parameters. lra.
  - intros w. unfold interact_CD. rewrite run_CD_simulate.
    + apply simulate_not_warning.
    + unfold passes_CD. lra.
Qed.

(** X1.  The stability guard of the CES driver tests n + g + delta == 0 where
    the Cobb-Douglas driver tests n + g + delta + n*g <= 0: with n = -0.5
    and g = delta = 0 the first driver warns and the second one iterates. *)
Lemma ces_stability_guard_differs :
  (exists w,
     interact_CD 10 10 (2/10) (1/10) (1/3) (1/3) (-1/2) 0 0 = Warning w)
  /\ forall w,
       interact_CES 10 10 (2/10) (1/10) (1/3) (1/3) (3/2) (-1/2) 0 0 <> Warning w.
Proof.
  split.
  - apply run_CD_warning. right. right. lra.
  - intros w. unfold interact_CES. rewrite run_CES_simulate.
    + apply simulate_not_warning.
    + unfold passes_CES. repeat split; lra.
Qed.

End RunClaims3.

(** ** Binary64: states that are not finite *)

Section FloatFacts.
Local Open Scope float_scope.

Lemma Prim2SF_nan : Prim2SF nan = S754_nan.
Proof. reflexivity. Qed.

Lemma Prim2SF_infinity : Prim2SF infinity = S754_infinity false.
Proof. reflexivity. Qed.

Lemma SFeqb_refl_finite s m e : SFeqb (S754_finite s m e) (S754_finite s m e) = true.
Proof.
  unfold SFeqb, SFcompare. rewrite Z.compare_refl, Pos.compare_cont_refl.
  destruct s; reflexivity.
Qed.

(** A float that is not finite is NaN or an infinity. *)
Lemma not_finite_cases x :
  is_finite x = false ->
  Prim2SF x = S754_nan \/ exists s, Prim2SF x = S754_infinity s.
Proof.
  unfold is_finite, is_nan, is_infinity.
  rewrite !FloatAxioms.eqb_spec, abs_spec, Prim2SF_infinity.
  destruct (Prim2SF x) as [s|s| |s m e]; eauto.
  - destruct s; discriminate.
  - rewrite SFeqb_refl_finite. cbn. discriminate.
Qed.

Lemma add_nan_r x : x + nan = nan.
Proof.
  apply Prim2SF_inj. rewrite add_spec, Prim2SF_nan.
  destruct (Prim2SF x) as [s|s| |s m e]; reflexivity.
Qed.

Lemma mul_nan_r x : x * nan = nan.
Proof.
  apply Prim2SF_inj. rewrite mul_spec, Prim2SF_nan.
  destruct (Prim2SF x) as [s|s| |s m e]; reflexivity.
Qed.

(** Whatever [t] is, [t - inf + inf] is NaN. *)
Lemma sub_add_infinity t : t - infinity + infinity = nan.
Proof.
  apply Prim2SF_inj. rewrite add_spec, sub_spec, Prim2SF_infinity, Prim2SF_nan.
  destruct (Prim2SF t) as [s|s| |s m e]; try destruct s; reflexivity.
Qed.

Lemma Prim2SF_neg_infinity : Prim2SF neg_infinity = S754_infinity true.
Proof. reflexivity. Qed.

(** Whatever [t] is, [t - (-inf) + (-inf)] is NaN. *)
Lemma sub_add_neg_infinity t : t - neg_infinity + neg_infinity = nan.
Proof.
  apply Prim2SF_inj. rewrite add_spec, sub_spec, Prim2SF_neg_infinity, Prim2SF_nan.
  destruct (Prim2SF t) as [s|s| |s m e]; try destruct s; reflexivity.
Qed.

(** Whatever [t] is, [t - inf + x] is NaN or -inf when [x] is finite. *)
Lemma sub_infinity_add_finite t x :
  is_finite x = true -> t - infinity + x = nan \/ t - infinity + x = neg_infinity.
Proof.
  intros Hx.
  assert (H : Prim2SF (t - infinity + x) = S754_nan
              \/ Prim2SF (t - infinity + x) = S754_infinity true).
  { rewrite add_spec, sub_spec, Prim2SF_infinity.
    assert (Hfin : (exists s, Prim2SF x = S754_zero s)
                   \/ exists s m e, Prim2SF x = S754_finite s m e).
    { revert Hx. unfold is_finite, is_nan, is_infinity.
      rewrite !FloatAxioms.eqb_spec, abs_spec, Prim2SF_infinity.
      destruct (Prim2SF x) as [s|s| |s m e]; eauto.
      - destruct s; discriminate.
      - discriminate. }
    destruct Hfin as [[sx ->]|(sx & mx & ex & ->)];
      destruct (Prim2SF t) as [s|s| |s m e]; try destruct s; auto. }
  destruct H as [H|H]; [left|right]; apply Prim2SF_inj; rewrite H; reflexivity.
Qed.

(** The comparison of the margin test is false as soon as the new value is
    NaN or infinite, whatever the previous value and the margin. *)
Lemma margin_test_not_finite x y t :
  is_finite x = false -> (abs (x - y) <? t) = false.
Proof.
  intros H. rewrite ltb_spec, abs_spec, sub_spec.
  destruct (not_finite_cases x H) as [->|[s ->]].
  - reflexivity.
  - destruct (Prim2SF y) as [sy|sy| |sy my ey], (Prim2SF t) as [st|st| |st mt et];
      try destruct s; try destruct sy; try destruct st; reflexivity.
Qed.

End FloatFacts.

Section FloatRuns.
Variable fpow : float -> float -> float.
Local Abbreviation FN := (float_num fpow).
Local Abbreviation TOL := (@lit_tol float (float_num fpow)).
Local Open Scope float_scope.

Lemma moved_less_not_finite kmap hmap tol k0 h0 j :
  is_finite (fst (state_at kmap hmap k0 h0 j)) = false
  \/ is_finite (snd (state_at kmap hmap k0 h0 j)) = false ->
  moved_less (num:=FN) kmap hmap tol k0 h0 j = false.
Proof.
  intros [H|H]; unfold moved_less;
    float_ops;
    rewrite (@margin_test_not_finite _ _ _ H).
  - apply andb_false_r.
  - reflexivity.
Qed.

Lemma simulate_ends_in_a_break kmap hmap k0 h0 :
  ends_in_a_break kmap hmap k0 h0
    (simulate (num:=FN) kmap hmap TOL max_iter k0 h0).
Proof.
  right.
  destruct (simulate_stops (num:=FN) kmap hmap TOL k0 h0 max_iter_ge_2)
    as (m & Hm & _ & [(Hnear & Hrun)|(_ & Hend & Hrun)]); exists m; (split; [lia|]).
  - left. split; [exact Hrun|].
    split.
    + destruct (is_finite (fst (state_at kmap hmap k0 h0 m))) eqn:E; [reflexivity|].
      rewrite moved_less_not_finite in Hnear by (left; exact E). discriminate.
    + destruct (is_finite (snd (state_at kmap hmap k0 h0 m))) eqn:E; [reflexivity|].
      rewrite moved_less_not_finite in Hnear by (right; exact E). discriminate.
  - right. split; [exact Hend|exact Hrun].
Qed.

(** C2, as the code has it.  The loop of the two drivers does not test the
    values the transition functions return.  For any two transition
    functions, wherever they return floats: a state with a NaN or infinite
    coordinate fails the margin test, so the loop does not stop on it; the
    state stays in the lists and the functions are applied to it.  The loop
    ends through one of its two [break]s: Converged only on a last state
    with two finite coordinates, NotConverged with all the states up to the
    bound. *)
Theorem not_finite_state_is_iterated_on (kmap hmap : float -> float -> float) k0 h0 :
  (forall j,
     is_finite (fst (state_at kmap hmap k0 h0 j)) = false
     \/ is_finite (snd (state_at kmap hmap k0 h0 j)) = false ->
     moved_less (num:=FN) kmap hmap TOL k0 h0 j = false)
  /\ ends_in_a_break kmap hmap k0 h0
       (simulate (num:=FN) kmap hmap TOL max_iter k0 h0).
Proof.
  split.
  - intros j. apply moved_less_not_finite.
  - apply simulate_ends_in_a_break.
Qed.

(** Once the physical capital is NaN it stays NaN. *)
Lemma kt1_nan h sk alpha phi sigma n g delta :
  kt1 (num:=FN) nan h sk alpha phi sigma n g delta = nan.
Proof.
  unfold kt1.
  float_ops.
  now rewrite add_nan_r, mul_nan_r.
Qed.

(** From an infinite physical capital, with the default arguments of
    [interact_CES], the first step is NaN whatever the power returns. *)
Lemma kt1_infinity_default h :
  kt1 (num:=FN) infinity h (2/10) (1/3) (1/3) 1.5 (2/100) (2/100) (5/100) = nan.
Proof.
  unfold kt1.
  float_ops.
  replace ((2/100 + 2/100 + 5/100 + 2/100 * (2/100)) * infinity) with infinity
    by reflexivity.
  now rewrite sub_add_infinity, mul_nan_r.
Qed.

Lemma nan_from_first_step_on h0 j :
  (1 <= j)%nat ->
  fst (state_at
         (fun k h => kt1 (num:=FN) k h (2/10) (1/3) (1/3) 1.5 (2/100) (2/100) (5/100))
         (fun k h => ht1 (num:=FN) k h (1/10) (1/3) (1/3) 1.5 (2/100) (2/100) (5/100))
         infinity h0 j) = nan.
Proof.
  induction j as [|j IH]; [lia|]. intros _.
  destruct j as [|j].
  - cbn [state_at next_state fst snd]. apply kt1_infinity_default.
  - cbn [state_at next_state fst snd] in *. rewrite IH by lia. apply kt1_nan.
Qed.

(** A run whose physical capital is never finite after the first step ends
at the bound. *)
Lemma simulate_never_finite kmap hmap k0 h0 :
  (forall j, (1 <= j)%nat -> is_finite (fst (state_at kmap hmap k0 h0 j)) = false) ->
  exists ks hs,
    simulate (num:=FN) kmap hmap TOL max_iter k0 h0 = NotConverged ks hs
    /\ length ks = max_iter
    /\ nth 1 ks 0 = fst (state_at kmap hmap k0 h0 1)
    /\ nth 2 ks 0 = fst (state_at kmap hmap k0 h0 2).
Proof.
intros Hnf.
destruct (simulate_stops (num:=FN) kmap hmap TOL k0 h0 max_iter_ge_2)
  as (m & Hm & _ & [(Hnear & _)|(_ & Hend & Hrun)]).
- rewrite moved_less_not_finite in Hnear; [discriminate|].
  left. apply Hnf. lia.
- rewrite Hrun. do 2 eexists. split; [reflexivity|].
  assert (H3 : (2 <= m)%nat) by (rewrite Hend; unfold max_iter; lia).
  split; [|split].
  + rewrite length_ks_upto. pose proof max_iter_ge_2. lia.
  + change (nth 1 ?l 0) with (idx (num:=FN) l 1). now rewrite idx_ks_upto by lia.
  + change (nth 2 ?l 0) with (idx (num:=FN) l 2). now rewrite idx_ks_upto by lia.
Qed.

Lemma infinite_capital_run :
  exists ks hs,
    interact_CES (num:=FN) infinity 10 (2/10) (1/10) (1/3) (1/3) 1.5 (2/100) (2/100) (5/100)
    = NotConverged ks hs
    /\ length ks = max_iter /\ nth 1 ks 0 = nan.
Proof.
unfold interact_CES. rewrite run_CES_through by reflexivity.
match goal with |- context [simulate ?km ?hm _ _ _ _] =>
  destruct (@simulate_never_finite km hm infinity 10) as (ks & hs & Hrun & Hlen & H1 & _)
end.
- intros j Hj. now rewrite nan_from_first_step_on.
- exists ks, hs. split; [exact Hrun|]. split; [exact Hlen|].
  rewrite H1. now apply nan_from_first_step_on.
Qed.

(** The same from a finite state: k0 = 1e308 (written in binary below) and
delta = 100.  The product (n+g+delta+ng)*k0 overflows to +inf, the first
step is -inf or NaN and the second one is NaN, whatever the power returns. *)
Lemma kt1_overflow_first_step h :
  kt1 (num:=FN) 0x1.1ccf385ebc8a0p+1023 h (2/10) (1/3) (1/3) 1.5 (2/100) (2/100) 100 = nan
  \/ kt1 (num:=FN) 0x1.1ccf385ebc8a0p+1023 h (2/10) (1/3) (1/3) 1.5 (2/100) (2/100) 100
     = neg_infinity.
Proof.
unfold kt1. float_ops.
replace ((2/100 + 2/100 + 100 + 2/100 * (2/100)) * 0x1.1ccf385ebc8a0p+1023)
  with infinity by reflexivity.
match goal with |- context [?t - infinity + ?x] =>
  destruct (@sub_infinity_add_finite t x eq_refl) as [-> | ->]
end.
- left. apply mul_nan_r.
- right. reflexivity.
Qed.

Lemma kt1_neg_infinity_step h :
  kt1 (num:=FN) neg_infinity h (2/10) (1/3) (1/3) 1.5 (2/100) (2/100) 100 = nan.
Proof.
unfold kt1. float_ops.
replace ((2/100 + 2/100 + 100 + 2/100 * (2/100)) * neg_infinity)
  with neg_infinity by reflexivity.
now rewrite sub_add_neg_infinity, mul_nan_r.
Qed.

Lemma overflow_states h0 j :
  (1 <= j)%nat ->
  let k := fst (state_at
                  (fun k h => kt1 (num:=FN) k h (2/10) (1/3) (1/3) 1.5 (2/100) (2/100) 100)
                  (fun k h => ht1 (num:=FN) k h (1/10) (1/3) (1/3) 1.5 (2/100) (2/100) 100)
                  0x1.1ccf385ebc8a0p+1023 h0 j) in
  k = nan \/ (j = 1%nat /\ k = neg_infinity).
Proof.
induction j as [|j IH]; [lia|]. intros _.
destruct j as [|j].
- cbn [state_at next_state fst snd].
  destruct (kt1_overflow_first_step h0) as [-> | ->]; auto.
- cbv zeta in IH. cbn [state_at next_state fst snd] in *. left.
  destruct IH as [-> | [_ ->]]; [lia|apply kt1_nan|apply kt1_neg_infinity_step].
Qed.

Lemma overflow_run :
  exists ks hs,
    interact_CES (num:=FN) 0x1.1ccf385ebc8a0p+1023 10
      (2/10) (1/10) (1/3) (1/3) 1.5 (2/100) (2/100) 100
    = NotConverged ks hs
    /\ length ks = max_iter /\ is_finite (nth 1 ks 0) = false /\ nth 2 ks 0 = nan.
Proof.
unfold interact_CES. rewrite run_CES_through by reflexivity.
match goal with |- context [simulate ?km ?hm _ _ _ _] =>
  destruct (@simulate_never_finite km hm 0x1.1ccf385ebc8a0p+1023 10)
    as (ks & hs & Hrun & Hlen & H1 & H2)
end.
- intros j Hj. destruct (overflow_states 10 Hj) as [-> | [_ ->]]; reflexivity.
- exists ks, hs. split; [exact Hrun|]. split; [exact Hlen|].
  rewrite H1, H2. split.
  + destruct (@overflow_states 10 1%nat (le_n 1)) as [-> | [_ ->]]; reflexivity.
  + destruct (@overflow_states 10 2%nat (le_S _ _ (le_n 1))) as [H | [H _]];
      [exact H|discriminate].
Qed.

End FloatRuns.

(** C2, counterexample.  [interact_CES] called with k0 = +infinity and its
    default arguments otherwise: the first application of [kt1] returns NaN,
    nothing is raised, and the call ends at i = 9999 with NotConverged and
    10000 states.  This holds for every float power function. *)
Lemma nan_state_ends_not_converged :
  (forall fpow,
     kt1 (num:=float_num fpow) infinity 10 (2/10) (1/3) (1/3) 1.5 (2/100) (2/100) (5/100)
     = nan)%float
  /\ (forall fpow, exists ks hs,
        interact_CES (num:=float_num fpow) infinity 10
          (2/10) (1/10) (1/3) (1/3) 1.5 (2/100) (2/100) (5/100)
        = NotConverged ks hs
        /\ length ks = max_iter /\ nth 1 ks 0 = nan)%float.
Proof.
  split; intros fpow.
  - apply kt1_infinity_default.
  - apply infinite_capital_run.
Qed.

(** ** The loop, run

    Binary64 is executable.  The three runs below use transition functions
    that halve or double a coordinate (no power is needed, so the power
    argument of the instance is immaterial), with margin 3/16. *)

Section LoopRuns.
Local Open Scope float_scope.
Local Abbreviation FX := (float_num (fun x _ => x)).

(** Steps of size 1/2, 1/4, 1/8: the first one below 3/16 is the third. *)
Example halving_converges_at_third_step :
  simulate (num:=FX) (fun k _ => k / 2) (fun _ h => h / 2) (3/16) 10 1 1
  = Converged [1; 0.5; 0.25; 0.125] [1; 0.5; 0.25; 0.125].
Proof. vm_compute. reflexivity. Qed.

(** With bound 3 the loop stops at i = 2, before the margin is reached. *)
Example halving_stops_at_bound :
  simulate (num:=FX) (fun k _ => k / 2) (fun _ h => h / 2) (3/16) 3 1 1
  = NotConverged [1; 0.5; 0.25] [1; 0.5; 0.25].
Proof. vm_compute. reflexivity. Qed.

(** One coordinate settling is not enough: [k] halves while [h] doubles. *)
Example one_coordinate_is_not_enough :
  simulate (num:=FX) (fun k _ => k / 2) (fun _ h => h * 2) (3/16) 6 1 1
  = NotConverged [1; 0.5; 0.25; 0.125; 0.0625; 0.03125] [1; 2; 4; 8; 16; 32].
Proof. vm_compute. reflexivity. Qed.

(** The guards, run: s_K = 0.6 and s_H = 0.5 end in the savings warning. *)
Example savings_warning :
  interact_CD (num:=FX) 4 6 (6/10) (5/10) (1/3) (1/3) (2/100) (2/100) (5/100)
  = Warning W_savings
  /\ interact_CES (num:=FX) 4 6 (6/10) (5/10) (1/3) (1/3) 1.5 (2/100) (2/100) (5/100)
     = Warning W_savings.
Proof. split; vm_compute; reflexivity. Qed.

End LoopRuns.

(** ** More on the steady state *)

Lemma steady_state_ratio_witness :
  (0 < _ktilstar_sol (15/100) (1/3) (1/3) (1/10) (5/100) (2/100) (2/100)
   /\ 0 < _htilstar_sol (15/100) (1/3) (1/3) (1/10) (5/100) (2/100) (2/100)
   /\ 1/10 * _htilstar_sol (15/100) (1/3) (1/3) (1/10) (5/100) (2/100) (2/100)
      = 15/100 * _ktilstar_sol (15/100) (1/3) (1/3) (1/10) (5/100) (2/100) (2/100))%R.
Proof.
  apply (@steady_state_ratio (1/10) (15/100) (1/3) (1/3) (2/100) (2/100) (5/100))%R.
  unfold valid_parameters. lra.
Defined.

Lemma positive_steady_state_unique_witness :
  (1 = _ktilstar_sol (1/10) (1/4) (1/4) (1/10) (1/10) 0 0
   /\ 1 = _htilstar_sol (1/10) (1/4) (1/4) (1/10) (1/10) 0 0)%R.
Proof.
  apply (@positive_steady_state_unique (1/10) (1/10) (1/4) (1/4) 0 0 (1/10))%R.
  - unfold valid_parameters. lra.
  - lra.
  - lra.
  - lra.
  - rewrite kt_plus1_func_real, !Rpower_base_1. field.
  - rewrite ht_plus1_func_real, !Rpower_base_1. field.
Defined.

(** ** The lists of a run, over any arithmetic *)

Section Orbit.
Context {F : Type} {num : PyNum F}.

Lemma upto_is_orbit (kmap hmap : F -> F -> F) k0 h0 m :
  is_orbit kmap hmap k0 h0 (ks_upto kmap hmap k0 h0 m) (hs_upto kmap hmap k0 h0 m).
Proof.
  unfold is_orbit. rewrite length_hs_upto, length_ks_upto.
  split; [reflexivity|].
  split; [now rewrite idx_ks_upto by lia|].
  split; [now rewrite idx_hs_upto by lia|].
  intros j Hj.
  rewrite !idx_ks_upto, !idx_hs_upto by lia. split; reflexivity.
Qed.

Lemma simulate_is_orbit (kmap hmap : F -> F -> F) tol maxit k0 h0 :
  on_trajectory (is_orbit kmap hmap k0 h0) (simulate kmap hmap tol maxit k0 h0).
Proof.
  destruct (le_lt_dec 2 maxit) as [Hmax|Hmax].
  - destruct (simulate_stops kmap hmap tol k0 h0 Hmax)
      as (m & _ & _ & [(_ & ->)|(_ & _ & ->)]); apply upto_is_orbit.
  - rewrite simulate_small_bound by lia. exact I.
Qed.

(** X9.  Whatever the arithmetic, the margin and the bound, the two lists a
    driver ends with have the same length, start at (k0, h0), and each
    further pair of entries is the image of the pair before under the
    driver's two transition functions. *)
Theorem trajectory_is_orbit tol maxit (k0 h0 sk sh alpha phi sigma n g delta : F) :
  on_trajectory
    (is_orbit (fun k h => kt_plus1_func k h alpha n g sh sk delta phi)
              (fun k h => ht_plus1_func k h alpha n g sh sk delta phi) k0 h0)
    (run_CD tol maxit k0 h0 sk sh alpha phi n g delta)
  /\ on_trajectory
       (is_orbit (fun k h => kt1 k h sk alpha phi sigma n g delta)
                 (fun k h => ht1 k h sh alpha phi sigma n g delta) k0 h0)
       (run_CES tol maxit k0 h0 sk sh alpha phi sigma n g delta).
Proof.
  split.
  - destruct (run_CD_cases tol maxit k0 h0 sk sh alpha phi n g delta)
      as [[w ->]| ->]; [exact I|apply simulate_is_orbit].
  - destruct (run_CES_cases tol maxit k0 h0 sk sh alpha phi sigma n g delta)
      as [[w ->]| ->]; [exact I|apply simulate_is_orbit].
Qed.

End Orbit.

(** ** The widget, the drivers and the plots over the real numbers *)

Section WidgetAndDrivers.
Local Open Scope R_scope.

(** X7.  The steady-state widget and the Cobb-Douglas driver answer the same
    parameter sets with the same warning: [ss_sol_int] shows a warning
    exactly when [interact_CD] shows that warning (and displays the two
    steady-state values exactly when the driver goes on to iterate). *)
Theorem ss_sol_int_warns_as_interact_CD
    tol maxit k0 h0 sk sh alpha phi n g delta w :
  ss_sol_int sh phi alpha sk delta g n = SS_warning w
  <-> run_CD tol maxit k0 h0 sk sh alpha phi n g delta = Warning w.
Proof.
  unfold ss_sol_int, run_CD. real_ops.
  replace (sh + sk) with (sk + sh) by ring.
  destruct (Rleb 1 (sk + sh)), (Rleb 1 (alpha + phi)); cbn [andb];
    try (split; intros H; injection H as <-; reflexivity).
  destruct (Rleb (n + g + delta + n * g) 0);
    try (split; intros H; injection H as <-; reflexivity).
  split; [discriminate|].
  intros H. now apply simulate_not_warning in H.
Qed.

(** X8.  For valid parameters and a divisor (1+n)(1+g) other than zero,
    the Cobb-Douglas driver started at the steady state that the widget
    displays stops at its first test: it ends with Converged on the
    two-entry lists [k*, k*] and [h*, h*]. *)
Theorem steady_state_run_converges_at_once sk sh alpha phi n g delta :
  valid_parameters sk sh alpha phi n g delta -> (1 + n) * (1 + g) <> 0 ->
  interact_CD (_ktilstar_sol sh phi alpha sk delta g n)
              (_htilstar_sol sh phi alpha sk delta g n)
              sk sh alpha phi n g delta
  = Converged [_ktilstar_sol sh phi alpha sk delta g n;
               _ktilstar_sol sh phi alpha sk delta g n]
              [_htilstar_sol sh phi alpha sk delta g n;
               _htilstar_sol sh phi alpha sk delta g n].
Proof.
  intros Hvalid _.
  destruct (steady_state_balance Hvalid) as [Bk Bh].
  assert (Ek : kt_plus1_func (_ktilstar_sol sh phi alpha sk delta g n)
                 (_htilstar_sol sh phi alpha sk delta g n) alpha n g sh sk delta phi
               = _ktilstar_sol sh phi alpha sk delta g n).
  { rewrite kt_plus1_func_real, Bk. ring. }
  assert (Eh : ht_plus1_func (_ktilstar_sol sh phi alpha sk delta g n)
                 (_htilstar_sol sh phi alpha sk delta g n) alpha n g sh sk delta phi
               = _htilstar_sol sh phi alpha sk delta g n).
  { rewrite ht_plus1_func_real, Bh. ring. }
  unfold interact_CD. rewrite run_CD_simulate by now apply valid_passes_CD.
  rewrite simulate_first_step.
  - now rewrite Ek, Eh.
  - exact max_iter_ge_2.
  - rewrite Ek, Rminus_diag, Rabs_R0. real_ops. lra.
  - rewrite Eh, Rminus_diag, Rabs_R0. real_ops. lra.
Qed.

Lemma steady_state_run_converges_at_once_witness :
  interact_CD (_ktilstar_sol (15/100) (1/3) (1/3) (1/10) (5/100) (2/100) (2/100))
              (_htilstar_sol (15/100) (1/3) (1/3) (1/10) (5/100) (2/100) (2/100))
              (1/10) (15/100) (1/3) (1/3) (2/100) (2/100) (5/100)
  = Converged [_ktilstar_sol (15/100) (1/3) (1/3) (1/10) (5/100) (2/100) (2/100);
               _ktilstar_sol (15/100) (1/3) (1/3) (1/10) (5/100) (2/100) (2/100)]
              [_htilstar_sol (15/100) (1/3) (1/3) (1/10) (5/100) (2/100) (2/100);
               _htilstar_sol (15/100) (1/3) (1/3) (1/10) (5/100) (2/100) (2/100)].
Proof.
  apply (@steady_state_run_converges_at_once
           (1/10) (15/100) (1/3) (1/3) (2/100) (2/100) (5/100));
    [unfold valid_parameters; lra | lra].
Defined.

Lemma simulate_not_converged_iff kmap hmap tol maxit k0 h0 ks hs :
  simulate kmap hmap tol maxit k0 h0 = NotConverged ks hs
  <-> (2 <= maxit)%nat
      /\ ks = ks_upto kmap hmap k0 h0 (maxit - 1)
      /\ hs = hs_upto kmap hmap k0 h0 (maxit - 1)
      /\ (forall j, (1 <= j <= maxit - 1)%nat -> ~ within_margin kmap hmap tol k0 h0 j).
Proof.
  destruct (le_lt_dec 2 maxit) as [Hmax|Hmax].
  - destruct (simulate_stops kmap hmap tol k0 h0 Hmax) as (m & Hm & Hbefore & Hres).
    split.
    + intros Hrun.
      destruct Hres as [(_ & Heq)|(Hfar & Hend & Heq)]; rewrite Heq in Hrun;
        [discriminate|].
      injection Hrun as <- <-. subst m. repeat split; try assumption.
      intros j Hj. apply moved_less_false.
      destruct (Nat.eq_dec j (maxit - 1)) as [->|Hne]; [assumption|].
      apply Hbefore. lia.
    + intros (_ & -> & -> & Hnever).
      destruct Hres as [(Hnear & _)|(_ & Hend & Heq)].
      * exfalso. apply (Hnever m); [lia|]. now apply moved_less_true.
      * now rewrite Heq, Hend.
  - rewrite simulate_small_bound by lia. split; [discriminate|].
    intros (Hmax' & _). lia.
Qed.

Lemma run_CD_passes_or_warns tol maxit k0 h0 sk sh alpha phi n g delta :
  passes_CD sk sh alpha phi n g delta
  \/ exists w, run_CD tol maxit k0 h0 sk sh alpha phi n g delta = Warning w.
Proof.
  destruct (Rlt_dec (sk + sh) 1) as [H1|H1];
    [destruct (Rlt_dec (alpha + phi) 1) as [H2|H2];
     [destruct (Rlt_dec 0 (n + g + delta + n * g)) as [H3|H3]|]|];
    [left; unfold passes_CD; tauto| | |]; right; apply run_CD_warning; lra.
Qed.

Lemma run_CES_passes_or_warns tol maxit k0 h0 sk sh alpha phi sigma n g delta :
  passes_CES sk sh alpha phi n g delta
  \/ exists w, run_CES tol maxit k0 h0 sk sh alpha phi sigma n g delta = Warning w.
Proof.
  destruct (Rlt_dec (sk + sh) 1) as [H1|H1];
    [destruct (Rlt_dec (alpha + phi) 1) as [H2|H2]|];
    [|right; apply run_CES_warning; lra|right; apply run_CES_warning; lra].
  destruct (Req_dec_T (n + g + delta) 0) as [H0|H0].
  - right. unfold run_CES. real_ops.
    replace (Reqb (n + g + delta) 0) with true by (symmetry; now apply Reqb_true).
    destruct (Rleb 1 (sk + sh) && Rleb 1 (alpha + phi)),
             (Rleb 1 (alpha + phi)), (Rleb 1 (sk + sh)); eauto.
  - left. unfold passes_CES. tauto.
Qed.

(** X10.  A driver ends with NotConverged and the lists [ks], [hs] exactly
    when the call passes the guards, the bound is at least 2, the lists hold
    all the states 0..bound-1, and at no step from 1 to bound-1 did both
    coordinates move by less than the margin. *)
Theorem not_converged_iff_never_within_margin
    tol maxit k0 h0 sk sh alpha phi sigma n g delta ks hs :
  (run_CD tol maxit k0 h0 sk sh alpha phi n g delta = NotConverged ks hs
   <-> passes_CD sk sh alpha phi n g delta
       /\ (2 <= maxit)%nat
       /\ ks = ks_upto (fun k h => kt_plus1_func k h alpha n g sh sk delta phi)
                       (fun k h => ht_plus1_func k h alpha n g sh sk delta phi)
                       k0 h0 (maxit - 1)
       /\ hs = hs_upto (fun k h => kt_plus1_func k h alpha n g sh sk delta phi)
                       (fun k h => ht_plus1_func k h alpha n g sh sk delta phi)
                       k0 h0 (maxit - 1)
       /\ (forall j, (1 <= j <= maxit - 1)%nat ->
             ~ within_margin (fun k h => kt_plus1_func k h alpha n g sh sk delta phi)
                             (fun k h => ht_plus1_func k h alpha n g sh sk delta phi)
                             tol k0 h0 j))
  /\ (run_CES tol maxit k0 h0 sk sh alpha phi sigma n g delta = NotConverged ks hs
      <-> passes_CES sk sh alpha phi n g delta
          /\ (2 <= maxit)%nat
          /\ ks = ks_upto (fun k h => kt1 k h sk alpha phi sigma n g delta)
                          (fun k h => ht1 k h sh alpha phi sigma n g delta)
                          k0 h0 (maxit - 1)
          /\ hs = hs_upto (fun k h => kt1 k h sk alpha phi sigma n g delta)
                          (fun k h => ht1 k h sh alpha phi sigma n g delta)
                          k0 h0 (maxit - 1)
          /\ (forall j, (1 <= j <= maxit - 1)%nat ->
                ~ within_margin (fun k h => kt1 k h sk alpha phi sigma n g delta)
                                (fun k h => ht1 k h sh alpha phi sigma n g delta)
                                tol k0 h0 j)).
Proof.
  split; split.
  - intros Hrun.
    destruct (run_CD_passes_or_warns tol maxit k0 h0 sk sh alpha phi n g delta)
      as [Hp|[w Hw]]; [|congruence].
    split; [assumption|]. rewrite run_CD_simulate in Hrun by assumption.
    now apply simulate_not_converged_iff.
  - intros (Hp & H). rewrite run_CD_simulate by assumption.
    now apply simulate_not_converged_iff.
  - intros Hrun.
    destruct (run_CES_passes_or_warns tol maxit k0 h0 sk sh alpha phi sigma n g delta)
      as [Hp|[w Hw]]; [|congruence].
    split; [assumption|]. rewrite run_CES_simulate in Hrun by assumption.
    now apply simulate_not_converged_iff.
  - intros (Hp & H). rewrite run_CES_simulate by assumption.
    now apply simulate_not_converged_iff.
Qed.

End WidgetAndDrivers.

(** ** Positive states *)

Section Positivity.
Local Open Scope R_scope.

Lemma guards_keep_divisor_positive sk sh alpha phi n g delta :
  passes_CD sk sh alpha phi n g delta -> delta <= 1 -> 0 < (1 + n) * (1 + g).
Proof.
  intros (_ & _ & HD) Hd.
  replace ((1 + n) * (1 + g)) with (n + g + delta + n * g + (1 - delta)) by ring.
  lra.
Qed.

(** One Cobb-Douglas step is (s y + (1 - delta) x) / ((1+n)(1+g)). *)
Lemma cd_step_positive s x y n g delta :
  0 < (1 + n) * (1 + g) -> delta <= 1 -> 0 < s -> 0 < x -> 0 < y ->
  0 < 1 / ((1 + n) * (1 + g)) * (s * y - (n + g + delta + n * g) * x) + x.
Proof.
  intros Hd Hdelta Hs Hx Hy.
  assert (Hn : 1 + n <> 0) by (intros E; rewrite E, Rmult_0_l in Hd; lra).
  assert (Hg : 1 + g <> 0) by (intros E; rewrite E, Rmult_0_r in Hd; lra).
  replace (1 / ((1 + n) * (1 + g)) * (s * y - (n + g + delta + n * g) * x) + x)
    with ((s * y + (1 - delta) * x) / ((1 + n) * (1 + g))) by (field; split; assumption).
  apply Rdiv_lt_0_compat; [|assumption].
  assert (0 < s * y) by now apply Rmult_lt_0_compat.
  assert (0 <= (1 - delta) * x) by (apply Rmult_le_pos; lra).
  lra.
Qed.

Lemma Rpower_pos x y : 0 < Rpower x y.
Proof. unfold Rpower. apply exp_pos. Qed.

Lemma cd_state_positive sk sh alpha phi n g delta k0 h0 j :
  valid_parameters sk sh alpha phi n g delta -> delta <= 1 -> 0 < k0 -> 0 < h0 ->
  0 < fst (state_at (fun k h => kt_plus1_func k h alpha n g sh sk delta phi)
                    (fun k h => ht_plus1_func k h alpha n g sh sk delta phi) k0 h0 j)
  /\ 0 < snd (state_at (fun k h => kt_plus1_func k h alpha n g sh sk delta phi)
                       (fun k h => ht_plus1_func k h alpha n g sh sk delta phi) k0 h0 j).
Proof.
  intros Hvalid Hdelta Hk0 Hh0.
  pose proof (guards_keep_divisor_positive (valid_passes_CD Hvalid) Hdelta) as Hd.
  destruct Hvalid as (Hsk & Hsh & _).
  induction j as [|j [IHk IHh]]; [now split|].
  cbn [state_at next_state fst snd].
  rewrite kt_plus1_func_real, ht_plus1_func_real, !Rmult_assoc.
  split; apply cd_step_positive; try assumption;
    apply Rmult_lt_0_compat; apply Rpower_pos.
Qed.





End Positivity.

Section CESPositivity.
Local Open Scope R_scope.


(** One step of [kt1] is (s y + (1 - (n+g+delta+ng)) x) / ((1+n)(1+g)):
    the added x is inside the factor. *)
Lemma kt1_step_positive s x y n g delta :
  0 < (1 + n) * (1 + g) -> n + g + delta + n * g <= 1 -> 0 < s -> 0 < x -> 0 < y ->
  0 < 1 / ((1 + n) * (1 + g)) * (s * y - (n + g + delta + n * g) * x + x).
Proof.
  intros Hd HD Hs Hx Hy.
  apply Rmult_lt_0_compat.
  - unfold Rdiv. rewrite Rmult_1_l. now apply Rinv_0_lt_compat.
  - assert (0 < s * y) by now apply Rmult_lt_0_compat.
    assert (0 <= (1 - (n + g + delta + n * g)) * x) by (apply Rmult_le_pos; lra).
    lra.
Qed.

Lemma ces_state_positive sk sh alpha phi sigma n g delta k0 h0 j :
  valid_parameters sk sh alpha phi n g delta -> delta <= 1 ->
  n + g + delta + n * g <= 1 -> 0 < k0 -> 0 < h0 ->
  0 < fst (state_at (fun k h => kt1 k h sk alpha phi sigma n g delta)
                    (fun k h => ht1 k h sh alpha phi sigma n g delta) k0 h0 j)
  /\ 0 < snd (state_at (fun k h => kt1 k h sk alpha phi sigma n g delta)
                       (fun k h => ht1 k h sh alpha phi sigma n g delta) k0 h0 j).
Proof.
  intros Hvalid Hdelta HD Hk0 Hh0.
  pose proof (guards_keep_divisor_positive (valid_passes_CD Hvalid) Hdelta) as Hd.
  destruct Hvalid as (Hsk & Hsh & _).
  induction j as [|j [IHk IHh]]; [now split|].
  cbn [state_at next_state fst snd].
  rewrite kt1_real, ht1_real.
  split; [apply kt1_step_positive|apply cd_step_positive];
    try assumption; apply Rpower_pos.
Qed.



End CESPositivity.

(** ** The axes of the two plots *)

Section PlotAxes.
Local Open Scope R_scope.

Lemma plot_limit_bounds (ks hs : list R) :
  idx_last ks * (11 / 10) <= plot_limit ks hs
  /\ idx_last hs * (11 / 10) <= plot_limit ks hs
  /\ idx ks 0 * (11 / 10) <= plot_limit ks hs
  /\ idx hs 0 * (11 / 10) <= plot_limit ks hs.
Proof.
  unfold plot_limit.
  set (a := idx_last ks * (11 / 10)). set (b := idx_last hs * (11 / 10)).
  set (c := idx ks 0 * (11 / 10)). set (d := idx hs 0 * (11 / 10)).
  pose proof (Rmax_l a b). pose proof (Rmax_r a b).
  pose proof (Rmax_l (Rmax a b) c). pose proof (Rmax_r (Rmax a b) c).
  pose proof (Rmax_l (Rmax (Rmax a b) c) d). pose proof (Rmax_r (Rmax (Rmax a b) c) d).
  repeat split; lra.
Qed.

Lemma positive_ends_inside_axes (ks hs : list R) :
  0 < idx ks 0 -> 0 < idx hs 0 -> 0 < idx_last ks -> 0 < idx_last hs ->
  ends_inside_axes ks hs.
Proof.
  intros H1 H2 H3 H4.
  destruct (plot_limit_bounds ks hs) as (B1 & B2 & B3 & B4).
  unfold ends_inside_axes. repeat split; lra.
Qed.

Lemma simulate_ends_inside_axes (kmap hmap : R -> R -> R) tol maxit k0 h0 :
  (forall j, 0 < fst (state_at kmap hmap k0 h0 j) /\ 0 < snd (state_at kmap hmap k0 h0 j)) ->
  on_trajectory ends_inside_axes (simulate kmap hmap tol maxit k0 h0).
Proof.
  intros Hpos.
  assert (Hupto : forall m,
             ends_inside_axes (ks_upto kmap hmap k0 h0 m) (hs_upto kmap hmap k0 h0 m)).
  { intros m. apply positive_ends_inside_axes.
    - rewrite idx_ks_upto by lia. apply Hpos.
    - rewrite idx_hs_upto by lia. apply Hpos.
    - rewrite idx_last_ks_upto. apply Hpos.
    - rewrite idx_last_hs_upto. apply Hpos. }
  destruct (le_lt_dec 2 maxit) as [Hmax|Hmax].
  - destruct (simulate_stops kmap hmap tol k0 h0 Hmax)
      as (m & _ & _ & [(_ & ->)|(_ & _ & ->)]); apply Hupto.
  - rewrite simulate_small_bound by lia. exact I.
Qed.

(** X13.  The axis limit both plot functions compute, the largest of 1.1
    times the last and the first entry of the two lists, puts the initial
    state and the final state strictly inside the square (0, limit) x
    (0, limit) on every trajectory a driver hands over, for valid parameters
    with delta <= 1 and a positive initial state (for the CES driver also
    n+g+delta+ng <= 1). *)
Theorem plotted_ends_lie_inside_axes
    tol maxit k0 h0 sk sh alpha phi sigma n g delta :
  valid_parameters sk sh alpha phi n g delta -> delta <= 1 -> 0 < k0 -> 0 < h0 ->
  on_trajectory ends_inside_axes (run_CD tol maxit k0 h0 sk sh alpha phi n g delta)
  /\ (n + g + delta + n * g <= 1 ->
      on_trajectory ends_inside_axes
        (run_CES tol maxit k0 h0 sk sh alpha phi sigma n g delta)).
Proof.
  intros Hvalid Hdelta Hk0 Hh0. split.
  - rewrite run_CD_simulate by now apply valid_passes_CD.
    apply simulate_ends_inside_axes. intros j. now apply cd_state_positive.
  - intros HD.
    destruct (run_CES_cases tol maxit k0 h0 sk sh alpha phi sigma n g delta)
      as [[w ->]| ->]; [exact I|].
    apply simulate_ends_inside_axes. intros j. now apply ces_state_positive.
Qed.

Lemma plotted_ends_lie_inside_axes_witness :
  on_trajectory ends_inside_axes
    (interact_CD 4 6 (1/10) (15/100) (1/3) (1/3) (2/100) (2/100) (5/100))
  /\ (2/100 + 2/100 + 5/100 + 2/100 * (2/100) <= 1 ->
      on_trajectory ends_inside_axes
        (interact_CES 4 6 (1/10) (15/100) (1/3) (1/3) (3/2) (2/100) (2/100) (5/100))).
Proof.
  apply (@plotted_ends_lie_inside_axes (1/100000) max_iter 4 6
           (1/10) (15/100) (1/3) (1/3) (3/2) (2/100) (2/100) (5/100));
    [unfold valid_parameters; lra | lra | lra | lra].
Defined.

End PlotAxes.

(** ** A savings rate that is not a number *)

Section FloatGuards.
Variable fpow : float -> float -> float.
Local Abbreviation FN := (float_num fpow).
Local Abbreviation TOL := (@lit_tol float (float_num fpow)).
Local Open Scope float_scope.

Lemma add_nan_l x : nan + x = nan.
Proof.
  apply Prim2SF_inj. rewrite add_spec, Prim2SF_nan.
  destruct (Prim2SF x) as [s|s| |s m e]; reflexivity.
Qed.

Lemma leb_nan_r x : (x <=? nan) = false.
Proof.
  rewrite leb_spec, Prim2SF_nan.
  destruct (Prim2SF x) as [s|s| |s m e]; try destruct s; reflexivity.
Qed.

(** X14.  A savings rate s_K that is NaN is let through by the savings
    guard of the Cobb-Douglas driver: the sum s_K + s_H is NaN and both
    comparisons with it are false.  Whatever the other arguments, the
    margin and the bound, the call ends in the warning on the shares, in
    the warning on the stability term, or goes on to the first application
    of the transition functions and the loop; it never ends in a warning on
    the savings rates. *)
Theorem nan_savings_rate_passes_guard tol maxit k0 h0 sh alpha phi n g delta :
  run_CD (num:=FN) tol maxit k0 h0 nan sh alpha phi n g delta = Warning W_shares
  \/ run_CD (num:=FN) tol maxit k0 h0 nan sh alpha phi n g delta = Warning W_stability
  \/ run_CD (num:=FN) tol maxit k0 h0 nan sh alpha phi n g delta
     = simulate (num:=FN)
         (fun k h => kt_plus1_func (num:=FN) k h alpha n g sh nan delta phi)
         (fun k h => ht_plus1_func (num:=FN) k h alpha n g sh nan delta phi)
         tol maxit k0 h0.
Proof.
  unfold run_CD. float_ops.
  rewrite add_nan_l, leb_nan_r. cbn [andb].
  destruct (1 <=? alpha + phi); [now left|].
  destruct (n + g + delta + n * g <=? 0); [now right; left|].
  right; right. reflexivity.
Qed.

End FloatGuards.


(** ** The columns of the data notebook *)

Section DataColumns.
Local Open Scope R_scope.

Lemma length_from_previous f prev xs : length (from_previous f prev xs) = length xs.
Proof. revert prev. induction xs as [|x rest IH]; intros prev; cbn; [reflexivity|]. now rewrite IH. Qed.

Lemma length_from_previous_missing prev c :
  length (from_previous_missing prev c) = length c.
Proof. revert prev. induction c as [|x rest IH]; intros prev; cbn; [reflexivity|]. now rewrite IH. Qed.

Lemma row_from_previous f prev xs j :
  (j < length xs)%nat ->
  row (from_previous f prev xs) j = f (nth j (prev :: xs) 0) (nth j xs 0).
Proof.
  revert prev j. induction xs as [|x rest IH]; intros prev j Hj; cbn in Hj; [lia|].
  destruct j as [|j]; [reflexivity|].
  unfold row in *. cbn [from_previous nth]. apply IH. lia.
Qed.

Lemma row_from_previous_missing prev c j :
  (j < length c)%nat ->
  row (from_previous_missing prev c) j = sub_missing (row c j) (row (prev :: c) j).
Proof.
  revert prev j. induction c as [|x rest IH]; intros prev j Hj; cbn in Hj; [lia|].
  destruct j as [|j]; [reflexivity|].
  unfold row in *. cbn [from_previous_missing nth]. apply IH. lia.
Qed.

Lemma row_diff xs j :
  (S j < length xs)%nat -> row (diff xs) (S j) = Some (nth (S j) xs 0 - nth j xs 0).
Proof.
  destruct xs as [|x rest]; cbn [length]; intros Hj; [lia|].
  unfold diff, row. cbn [nth].
  apply (row_from_previous (fun prev cur => Some (cur - prev))). lia.
Qed.

Lemma row_percentage_change xs j :
  (S j < length xs)%nat -> nth j xs 0 <> 0 ->
  row (percentage_change xs) (S j) = Some ((nth (S j) xs 0 / nth j xs 0 - 1) * 100).
Proof.
  destruct xs as [|x rest]; cbn [length]; intros Hj Hnz; [lia|].
  unfold percentage_change, pct_change, row. cbn [map nth].
  change (@None R) with (option_map (fun v => v * 100) (@None R)).
  rewrite map_nth.
  match goal with |- context [nth j (from_previous ?f x rest) None] =>
    change (nth j (from_previous f x rest) None) with (row (from_previous f x rest) j)
  end.
  rewrite row_from_previous by lia.
  cbn [nth] in Hnz.
  destruct (Reqb (nth j (x :: rest) 0) 0) eqn:E; [|reflexivity].
  apply Reqb_true in E. contradiction.
Qed.

Lemma length_percentage_change xs : length (percentage_change xs) = length xs.
Proof.
  unfold percentage_change, pct_change. rewrite length_map.
  destruct xs as [|x rest]; [reflexivity|]. cbn. now rewrite length_from_previous.
Qed.

(** X16.  The column 'Change in percentage points' is the [diff] of the
    column 'Percentage change': it has one entry per row, rows 0 and 1 are
    missing, and a later row j whose two levels before it are not zero is
    100 (x_j / x_(j-1) - x_(j-1) / x_(j-2)). *)
Theorem percentage_points_from_levels xs j :
  (S (S j) < length xs)%nat -> nth j xs 0 <> 0 -> nth (S j) xs 0 <> 0 ->
  length (change_in_percentage_points xs) = length xs
  /\ row (change_in_percentage_points xs) 0 = None
  /\ row (change_in_percentage_points xs) 1 = None
  /\ row (change_in_percentage_points xs) (S (S j))
     = Some (100 * (nth (S (S j)) xs 0 / nth (S j) xs 0 - nth (S j) xs 0 / nth j xs 0)).
Proof.
  intros Hj Hnz1 Hnz2.
  pose proof (length_percentage_change xs) as Hlen.
  pose proof (@row_percentage_change xs (S j) Hj Hnz2) as H2.
  assert (Hj1 : (S j < length xs)%nat) by lia.
  pose proof (@row_percentage_change xs j Hj1 Hnz1) as H1.
  assert (H0 : row (percentage_change xs) 0 = None)
    by (destruct xs; reflexivity).
  unfold change_in_percentage_points.
  destruct (percentage_change xs) as [|p0 rest] eqn:E; cbn [length] in Hlen; [lia|].
  cbn [diff_missing]. unfold row in *. cbn [nth] in *. subst p0.
  split; [cbn [length]; now rewrite length_from_previous_missing|].
  split; [reflexivity|].
  split.
  - destruct rest as [|p1 rest']; [reflexivity|]. cbn. now destruct p1.
  - change (nth (S j) (from_previous_missing None rest) None)
      with (row (from_previous_missing None rest) (S j)).
    rewrite row_from_previous_missing by lia.
    unfold row. cbn [nth]. rewrite H2, H1. cbn [sub_missing].
    f_equal. unfold Rdiv. ring.
Qed.

Lemma percentage_points_from_levels_witness :
  length (change_in_percentage_points [100; 110; 99; 132]) = length [100; 110; 99; 132]
  /\ row (change_in_percentage_points [100; 110; 99; 132]) 0 = None
  /\ row (change_in_percentage_points [100; 110; 99; 132]) 1 = None
  /\ row (change_in_percentage_points [100; 110; 99; 132]) 3
     = Some (100 * (nth 3 [100; 110; 99; 132] 0 / nth 2 [100; 110; 99; 132] 0
                    - nth 2 [100; 110; 99; 132] 0 / nth 1 [100; 110; 99; 132] 0)).
Proof.
  apply (@percentage_points_from_levels [100; 110; 99; 132] 1);
    [cbn [length]; lia | cbn [nth]; lra | cbn [nth]; lra].
Defined.

(** X17.  Each level is recovered from the level of the row before and the
    entry of the column 'Absolute change', and, when the level before is not
    zero, from the entry of the column 'Percentage change':
    x_(j+1) = x_j + d = x_j (1 + p / 100).  Row 0 of both columns is
    missing. *)
Theorem level_recovered_from_changes xs j :
  (S j < length xs)%nat -> nth j xs 0 <> 0 ->
  (exists d, row (absolute_change xs) (S j) = Some d
             /\ nth (S j) xs 0 = nth j xs 0 + d)
  /\ (exists p, row (percentage_change xs) (S j) = Some p
               /\ nth (S j) xs 0 = nth j xs 0 * (1 + p / 100))
  /\ row (absolute_change xs) 0 = None
  /\ row (percentage_change xs) 0 = None.
Proof.
  intros Hj Hnz. split; [|split; [|split]].
  - eexists. split; [apply row_diff; assumption|]. ring.
  - eexists. split; [apply row_percentage_change; assumption|]. field. assumption.
  - destruct xs; reflexivity.
  - destruct xs; reflexivity.
Qed.

Lemma level_recovered_from_changes_witness :
  (exists d, row (absolute_change [100; 110; 99]) 2 = Some d
             /\ nth 2 [100; 110; 99] 0 = nth 1 [100; 110; 99] 0 + d)
  /\ (exists p, row (percentage_change [100; 110; 99]) 2 = Some p
               /\ nth 2 [100; 110; 99] 0 = nth 1 [100; 110; 99] 0 * (1 + p / 100))
  /\ row (absolute_change [100; 110; 99]) 0 = None
  /\ row (percentage_change [100; 110; 99]) 0 = None.
Proof.
  apply (@level_recovered_from_changes [100; 110; 99] 1); [cbn [length]; lia|].
  cbn [nth]. lra.
Defined.

End DataColumns.

(** ** The two averages of the data notebook *)

Section DataAverages.
Local Open Scope R_scope.

Lemma last_map_seq (f : nat -> R) n : last (map f (seq 0 (S n))) 0 = f n.
Proof. rewrite seq_S, map_app. cbn [map Nat.add]. apply last_last. Qed.

Lemma nth_map_seq_real (f : nat -> R) n j :
  (j < n)%nat -> nth j (map f (seq 0 n)) 0 = f j.
Proof.
  intros Hj. rewrite (nth_indep _ 0 (f 0%nat)) by now rewrite length_map, length_seq.
  rewrite (map_nth f (seq 0 n) 0%nat j), seq_nth by assumption. reflexivity.
Qed.

Lemma sum_snoc xs x : fold_right Rplus 0 (xs ++ [x]) = fold_right Rplus 0 xs + x.
Proof. induction xs as [|y rest IH]; cbn; [ring|]. rewrite IH. ring. Qed.

Lemma sum_arithmetic_series x0 c n :
  fold_right Rplus 0 (arithmetic_series x0 c n)
  = INR n * x0 + c * (INR n * (INR n - 1) / 2).
Proof.
  unfold arithmetic_series. induction n as [|n IH].
  - cbn. field.
  - rewrite seq_S, map_app. cbn [map Nat.add]. rewrite sum_snoc, IH, S_INR. field.
Qed.

Lemma length_arithmetic_series x0 c n : length (arithmetic_series x0 c n) = n.
Proof. unfold arithmetic_series. now rewrite length_map, length_seq. Qed.

Lemma view2_average_broadcast v xs :
  view2_average (broadcast v xs) = if (4 <=? length xs)%nat then Some v else None.
Proof.
  unfold view2_average, broadcast.
  destruct (length xs) as [|[|[|[|m]]]]; reflexivity.
Qed.

(** X18.  The column 'Average absolute change' is the mean of the level,
    not of the changes: on a series of n >= 1 rows that grows by the same
    amount c from row to row, every entry of 'Absolute change' after row 0
    is c, and the column of the average holds x_0 + c (n - 1) / 2.
    [view2] prints row 3 of that column, which is the average when the frame
    has at least four rows and does not exist otherwise. *)
Theorem average_absolute_change_is_mean_level x0 c n j :
  (1 <= n)%nat -> (S j < n)%nat ->
  average_absolute_change (arithmetic_series x0 c n) = x0 + c * (INR n - 1) / 2
  /\ row (absolute_change (arithmetic_series x0 c n)) (S j) = Some c
  /\ view2_average
       (broadcast (average_absolute_change (arithmetic_series x0 c n))
                  (arithmetic_series x0 c n))
     = if (4 <=? n)%nat then Some (x0 + c * (INR n - 1) / 2) else None.
Proof.
  intros Hn Hj.
  assert (Hmean : average_absolute_change (arithmetic_series x0 c n)
                  = x0 + c * (INR n - 1) / 2).
  { unfold average_absolute_change, mean.
    rewrite sum_arithmetic_series, length_arithmetic_series.
    assert (0 < INR n) by (apply lt_0_INR; lia). field. lra. }
  split; [exact Hmean|]. split.
  - unfold absolute_change. rewrite row_diff by (rewrite length_arithmetic_series; lia).
    unfold arithmetic_series. rewrite !nth_map_seq_real by lia.
    f_equal. rewrite S_INR. ring.
  - rewrite view2_average_broadcast, length_arithmetic_series, Hmean. reflexivity.
Qed.

Lemma average_absolute_change_is_mean_level_witness :
  average_absolute_change (arithmetic_series 100 10 5) = 100 + 10 * (INR 5 - 1) / 2
  /\ row (absolute_change (arithmetic_series 100 10 5)) 3 = Some 10
  /\ view2_average
       (broadcast (average_absolute_change (arithmetic_series 100 10 5))
                  (arithmetic_series 100 10 5))
     = if (4 <=? 5)%nat then Some (100 + 10 * (INR 5 - 1) / 2) else None.
Proof.
  apply (@average_absolute_change_is_mean_level 100 10 5 2); lia.
Defined.

Lemma average_rate_factor xs :
  1 + average_percentage_change xs / 100
  = Rpower (last xs 0 / nth 0 xs 0) (1 / INR (length xs)).
Proof. unfold average_percentage_change. field. Qed.

Lemma geometric_series_ends x0 q n :
  nth 0 (geometric_series x0 q (S n)) 0 = x0
  /\ last (geometric_series x0 q (S n)) 0 = x0 * q ^ n.
Proof.
  unfold geometric_series. split.
  - rewrite nth_map_seq_real by lia. cbn. ring.
  - apply last_map_seq.
Qed.

(** X19.  The column 'Average percentage change' takes the root of
    last / first of order len(x), the number of rows, where the series has
    len(x) - 1 changes.  The rate r it holds carries the first level to the
    last one when compounded over len(x) periods,
    x_0 (1 + r/100)^len(x) = x_last; on a series of n >= 2 rows that grows
    by the same factor q > 1 from row to row, r is below the common rate
    100 (q - 1). *)
Theorem average_percentage_change_spans_all_rows xs x0 q n :
  xs <> [] -> 0 < nth 0 xs 0 -> 0 < last xs 0 ->
  0 < x0 -> 1 < q -> (2 <= n)%nat ->
  nth 0 xs 0 * Rpower (1 + average_percentage_change xs / 100) (INR (length xs))
  = last xs 0
  /\ average_percentage_change (geometric_series x0 q n) < (q - 1) * 100.
Proof.
  intros Hne Hfirst Hlast Hx0 Hq Hn. split.
  - rewrite average_rate_factor.
    assert (Hlen : 0 < INR (length xs)).
    { apply lt_0_INR. destruct xs; [contradiction|cbn; lia]. }
    rewrite Rpower_mult.
    replace (1 / INR (length xs) * INR (length xs)) with 1 by (field; lra).
    rewrite Rpower_1 by (apply Rdiv_lt_0_compat; assumption).
    field. lra.
  - destruct n as [|n]; [lia|].
    assert (Hfactor : 1 + average_percentage_change (geometric_series x0 q (S n)) / 100 < q).
    { rewrite average_rate_factor.
      destruct (geometric_series_ends x0 q n) as [-> ->].
      unfold geometric_series. rewrite length_map, length_seq.
      replace (x0 * q ^ n / x0) with (q ^ n) by (field; lra).
      rewrite <- Rpower_pow by lra. rewrite Rpower_mult.
      rewrite <- (Rpower_1 q) at 2 by lra.
      apply Rpower_lt; [assumption|].
      assert (Hpos : 0 < INR (S n)) by (apply lt_0_INR; lia).
      rewrite S_INR in *.
      replace (INR n * (1 / (INR n + 1))) with (1 - / (INR n + 1)) by (field; lra).
      pose proof (Rinv_0_lt_compat _ Hpos). lra. }
    lra.
Qed.

Lemma average_percentage_change_spans_all_rows_witness :
  nth 0 [100; 110; 121] 0
    * Rpower (1 + average_percentage_change [100; 110; 121] / 100)
             (INR (length [100; 110; 121]))
  = last [100; 110; 121] 0
  /\ average_percentage_change (geometric_series 100 (11 / 10) 3) < (11 / 10 - 1) * 100.
Proof.
  apply (@average_percentage_change_spans_all_rows [100; 110; 121] 100 (11 / 10) 3);
    [discriminate | cbn [nth]; lra | cbn [last]; lra | lra | lra | lia].
Defined.

End DataAverages.

(** ** Calls that return a trajectory *)

Section FullTrajectory.
Local Open Scope R_scope.

Lemma run_CD_checked_zero_divisor tol maxit k0 h0 sk sh alpha phi n g delta :
  passes_CD sk sh alpha phi n g delta -> (1 + n) * (1 + g) = 0 ->
  run_CD_checked tol maxit k0 h0 sk sh alpha phi n g delta = ZeroDivisionError.
Proof.
  intros Hp Hz. unfold run_CD_checked.
  replace (Reqb ((1 + n) * (1 + g)) 0) with true by (symmetry; now apply Reqb_true).
  destruct (run_CD tol maxit k0 h0 sk sh alpha phi n g delta) as [w| | |] eqn:E;
    try reflexivity.
  rewrite run_CD_simulate in E by assumption.
  now apply simulate_not_warning in E.
Qed.

Lemma run_CD_checked_returns tol maxit k0 h0 sk sh alpha phi n g delta :
  (1 + n) * (1 + g) <> 0 ->
  run_CD_checked tol maxit k0 h0 sk sh alpha phi n g delta
  = Returned (run_CD tol maxit k0 h0 sk sh alpha phi n g delta).
Proof.
  intros Hnz. unfold run_CD_checked.
  destruct (Reqb ((1 + n) * (1 + g)) 0) eqn:E.
  - apply Reqb_true in E. contradiction.
  - now destruct (run_CD tol maxit k0 h0 sk sh alpha phi n g delta).
Qed.

(** C4, as the code has it.  For valid parameters with a depreciation rate
    of at most 1, a positive initial state, a positive margin and every
    positive number m of applications the loop allows (the [while] bound is
    m + 1; the notebook has 10000, so m = 9999), the call of the
    Cobb-Douglas driver raises nothing and returns: the divisor (1+n)(1+g)
    is positive, every state has positive coordinates, and the driver ends
    with Converged or NotConverged on the lists of all the states 0..j with
    1 <= j <= m; the lists have between 2 and m + 1 entries, and on
    NotConverged j = m, so nothing computed is dropped. *)
Theorem run_CD_returns_full_trajectory
    tol m k0 h0 sk sh alpha phi n g delta :
  valid_parameters sk sh alpha phi n g delta -> delta <= 1 ->
  0 < k0 -> 0 < h0 -> 0 < tol -> (1 <= m)%nat ->
  let kmap := fun k h => kt_plus1_func k h alpha n g sh sk delta phi in
  let hmap := fun k h => ht_plus1_func k h alpha n g sh sk delta phi in
  let r := run_CD tol (S m) k0 h0 sk sh alpha phi n g delta in
  run_CD_checked tol (S m) k0 h0 sk sh alpha phi n g delta = Returned r
  /\ (forall i, 0 < fst (state_at kmap hmap k0 h0 i)
                /\ 0 < snd (state_at kmap hmap k0 h0 i))
  /\ exists j, (1 <= j <= m)%nat
       /\ (r = Converged (ks_upto kmap hmap k0 h0 j) (hs_upto kmap hmap k0 h0 j)
           \/ (j = m
               /\ r = NotConverged (ks_upto kmap hmap k0 h0 j) (hs_upto kmap hmap k0 h0 j)))
       /\ trajectory_length r = S j
       /\ (2 <= trajectory_length r <= m + 1)%nat.
Proof.
  intros Hvalid Hdelta Hk0 Hh0 _ Hm kmap hmap r.
  pose proof (guards_keep_divisor_positive (valid_passes_CD Hvalid) Hdelta) as Hd.
  split; [apply run_CD_checked_returns; lra|].
  split; [intros i; now apply cd_state_positive|].
  subst r. rewrite run_CD_simulate by now apply valid_passes_CD.
  fold kmap hmap.
  assert (Hmax : (2 <= S m)%nat) by lia.
  destruct (simulate_stops kmap hmap tol k0 h0 Hmax)
    as (j & Hj & _ & [(_ & ->)|(_ & Hend & ->)]);
    exists j; cbn [trajectory_length]; rewrite length_ks_upto;
    repeat split; try lia; auto; right; split; [lia|reflexivity].
Qed.

Lemma run_CD_returns_full_trajectory_witness :
  let kmap := fun k h => kt_plus1_func k h (1/3) (2/100) (2/100) (15/100) (1/10) (5/100) (1/3) in
  let hmap := fun k h => ht_plus1_func k h (1/3) (2/100) (2/100) (15/100) (1/10) (5/100) (1/3) in
  let r := run_CD (1/100000) (S (max_iter - 1)) 1 1
             (1/10) (15/100) (1/3) (1/3) (2/100) (2/100) (5/100) in
  run_CD_checked (1/100000) (S (max_iter - 1)) 1 1
    (1/10) (15/100) (1/3) (1/3) (2/100) (2/100) (5/100) = Returned r
  /\ (forall i, 0 < fst (state_at kmap hmap 1 1 i) /\ 0 < snd (state_at kmap hmap 1 1 i))
  /\ exists j, (1 <= j <= max_iter - 1)%nat
       /\ (r = Converged (ks_upto kmap hmap 1 1 j) (hs_upto kmap hmap 1 1 j)
           \/ (j = (max_iter - 1)%nat
               /\ r = NotConverged (ks_upto kmap hmap 1 1 j) (hs_upto kmap hmap 1 1 j)))
       /\ trajectory_length r = S j
       /\ (2 <= trajectory_length r <= max_iter - 1 + 1)%nat.
Proof.
  apply (@run_CD_returns_full_trajectory (1/100000) (max_iter - 1) 1 1
           (1/10) (15/100) (1/3) (1/3) (2/100) (2/100) (5/100));
    [unfold valid_parameters; lra | lra | lra | lra | lra
    | pose proof max_iter_ge_2; lia].
Defined.

(** C4, counterexample.  n = -1, g = 0, delta = 2 with the standard shares
    and savings rates are valid parameters (n+g+delta+ng = 1 > 0) and the
    initial state (4, 6) is positive, yet (1+n)(1+g) = 0: the call passes
    the guards and raises ZeroDivisionError at the first application of
    [kt_plus1_func]; it returns no trajectory. *)
Lemma valid_parameters_allow_zero_divisor :
  valid_parameters (1/10) (15/100) (1/3) (1/3) (-1) 0 2
  /\ 0 < 4 /\ 0 < 6
  /\ run_CD_checked (1/100000) max_iter 4 6 (1/10) (15/100) (1/3) (1/3) (-1) 0 2
     = ZeroDivisionError.
Proof.
  assert (Hvalid : valid_parameters (1/10) (15/100) (1/3) (1/3) (-1) 0 2)
    by (unfold valid_parameters; lra).
  split; [exact Hvalid|]. split; [lra|]. split; [lra|].
  apply run_CD_checked_zero_divisor; [now apply valid_passes_CD|lra].
Qed.



End FullTrajectory.
